(** * FrankerFaceZ settings manager: a shallow embedding of [SettingsManager]

    The module under study is the settings coordinator (the class
    [SettingsManager]): the registry of setting definitions with its
    dependency edges, the profile list with its id index, the provider
    notifications, the backup snapshot and the update timer.

    JavaScript objects that are shared and mutated in place (the
    definition objects handed to [add], their [required_by] arrays and UI
    descriptors, the [SettingsProfile] instances) live in an explicit store
    and are named by their address, so that aliasing is visible.  Calls
    into collaborators and emitted events are appended to a log, oldest
    first. *)

From Stdlib Require Import Ascii.
From stdpp Require Import gmap strings list fin_maps pretty.

Open Scope string_scope.
Open Scope list_scope.
Open Scope nat_scope.

(** ** The registry of setting definitions ([add]) *)

Module Registry.

(** Addresses of a [required_by] array, of a definition object and of a UI
    descriptor in their stores. *)
Abbreviation aref := nat.
Abbreviation oref := nat.
Abbreviation uref := nat.

Section registry.
(** [V] is the type of default values and [UI] the type of UI descriptors.
    [prepare_ui] stands for the normalisation of the descriptor done by
    [add] ([format_path_tokens], [parse_path] and the derived [ui.key]), which
    rewrites the descriptor in place and can raise ([format_path_tokens] on an
    object without key and title, [JSON.parse] inside [parse_path],
    [ui.title.toSnakeCase()]): it gives the descriptor as the call leaves it,
    and whether the call returned. *)
Context {V UI : Type}.

Inductive prepared :=
| Prepared (ui : UI)
| Failed (err : string) (ui : UI).

Variable prepare_ui : UI → prepared.

(** A definition object, as the caller makes it and as [add] rewrites it:
    [add] stores the caller's object itself, so an object handed to [add]
    twice is one object under two keys.  [requires] and [required_by] are
    absent until they are set. *)
Record definition := Definition_ {
  default_value : V;
  requires : option (list string);
  required_by : option aref;
  ui : option uref;
  changed : option nat
}.

(** What [this.definitions] holds under a key: a bare array of
    requesting keys while the key has only been required, or the
    definition object afterwards. *)
Inductive entry :=
| Placeholder (a : aref)
| Registered (o : oref).

Inductive event :=
| AddedDefinition (key : string) (o : oref).

Record registry := Reg {
  definitions : gmap string entry;
  objects : list definition;
  arrays : list (list string);
  uis : list UI;
  listeners : list (string * nat);
  emitted : list event
}.

Definition init : registry :=
  {| definitions := ∅; objects := []; arrays := []; uis := [];
     listeners := []; emitted := [] |}.

(** A call that returns, or raises with the registry as the raise leaves
    it. *)
Inductive completion :=
| Normal (r : registry)
| Abrupt (err : string) (r : registry).

Definition registry_of (c : completion) : registry :=
  match c with Normal r | Abrupt _ r => r end.

(** Assignments to single fields. *)
Definition set_definitions f (r : registry) : registry :=
  {| definitions := f (definitions r); objects := objects r; arrays := arrays r;
     uis := uis r; listeners := listeners r; emitted := emitted r |}.

Definition set_objects f (r : registry) : registry :=
  {| definitions := definitions r; objects := f (objects r); arrays := arrays r;
     uis := uis r; listeners := listeners r; emitted := emitted r |}.

Definition set_arrays f (r : registry) : registry :=
  {| definitions := definitions r; objects := objects r; arrays := f (arrays r);
     uis := uis r; listeners := listeners r; emitted := emitted r |}.

Definition set_uis f (r : registry) : registry :=
  {| definitions := definitions r; objects := objects r; arrays := arrays r;
     uis := f (uis r); listeners := listeners r; emitted := emitted r |}.

(** The caller writes an object literal, or a descriptor literal. *)
Definition new_object (d : definition) (r : registry) : oref * registry :=
  (length (objects r), set_objects (λ os, os ++ [d]) r).

Definition new_ui (x : UI) (r : registry) : uref * registry :=
  (length (uis r), set_uis (λ us, us ++ [x]) r).

(** The array reached from an entry: the placeholder itself, or
    [definition.required_by], which is [undefined] on an object that has
    none. *)
Definition edges_ref (r : registry) (e : entry) : option aref :=
  match e with
  | Placeholder a => Some a
  | Registered o => objects r !! o ≫= required_by
  end.

(** Contents of the [required_by] list associated with [key]. *)
Definition required_by_list (r : registry) (key : string) : option (list string) :=
  e ← definitions r !! key; a ← edges_ref r e; arrays r !! a.

(** [arr.push(key)] on the array at address [a]. *)
Definition push (a : aref) (key : string) (r : registry) : registry :=
  set_arrays (alter (λ l, l ++ [key]) a) r.

(** One iteration of [for(const req_key of definition.requires)];
    [None] when [req.required_by.push] is reached on an object without
    [required_by]. *)
Definition note_requirement (key : string) (r : registry) (req_key : string)
    : option registry :=
  match definitions r !! req_key with
  | None =>
      Some (set_definitions (<[req_key := Placeholder (length (arrays r))]>)
              (set_arrays (λ l, l ++ [[key]]) r))
  | Some e => (λ a, push a key r) <$> edges_ref r e
  end.

(** The loop, which a raise leaves half done. *)
Fixpoint note_requirements (key : string) (reqs : list string) (r : registry)
    : completion :=
  match reqs with
  | [] => Normal r
  | req_key :: rest =>
      match note_requirement key r req_key with
      | Some r' => note_requirements key rest r'
      | None => Abrupt "TypeError" r
      end
  end.

(** [this.on(`:changed:${key}`, definition.changed)] *)
Definition on_changed (key : string) (h : option nat) (l : list (string * nat)) :=
  match h with
  | Some f => l ++ [(":changed:" +:+ key, f)]
  | None => l
  end.

(** [old_definition ? (Array.isArray(old_definition) ? old_definition :
    old_definition.required_by) : []]: the array that becomes
    [definition.required_by], a new empty one when the key has no entry. *)
Definition edges_for (key : string) (r : registry) : option aref * registry :=
  match definitions r !! key with
  | Some e => (edges_ref r e, r)
  | None => (Some (length (arrays r)), set_arrays (λ l, l ++ [[]]) r)
  end.

(** [if ( definition.ui ) { ... }]: the descriptor is rewritten where it
    is, also when the rewriting raises. *)
Definition normalise_ui (u : option uref) (r : registry) : completion :=
  match u with
  | None => Normal r
  | Some u =>
      match uis r !! u with
      | None => Abrupt "TypeError" r
      | Some x =>
          match prepare_ui x with
          | Prepared x' => Normal (set_uis (<[u := x']>) r)
          | Failed err x' => Abrupt err (set_uis (<[u := x']>) r)
          end
      end
  end.

(** The head of [add]: [definition.required_by = required_by;
    definition.requires = definition.requires || [];], written to the
    caller's object. *)
Definition adopt (key : string) (o : oref) (d : definition) (r : registry) : registry :=
  let '(rb, r1) := edges_for key r in
  set_objects (<[o := {| default_value := default_value d;
                         requires := Some (default [] (requires d));
                         required_by := rb;
                         ui := ui d;
                         changed := changed d |}]>) r1.

(** The end of [add]: the listener of [definition.changed],
    [this.definitions.set(key, definition)] and the event. *)
Definition store (key : string) (o : oref) (d : definition) (r : registry) : registry :=
  {| definitions := <[key := Registered o]> (definitions r);
     objects := objects r;
     arrays := arrays r;
     uis := uis r;
     listeners := on_changed key (changed d) (listeners r);
     emitted := emitted r ++ [AddedDefinition key o] |}.

(** [add(key, definition)] for a string key and the object at [o]. *)
Definition add (key : string) (o : oref) (r : registry) : completion :=
  match objects r !! o with
  | None => Abrupt "TypeError" r
  | Some d =>
      match note_requirements key (default [] (requires d)) (adopt key o d r) with
      | Abrupt err r3 => Abrupt err r3
      | Normal r3 =>
          match normalise_ui (ui d) r3 with
          | Abrupt err r4 => Abrupt err r4
          | Normal r4 => Normal (store key o d r4)
          end
      end
  end.

(** [add(mapping)]: one [add] per own key, in enumeration order; a raise
    ends the enumeration. *)
Fixpoint add_all (ds : list (string * oref)) (r : registry) : completion :=
  match ds with
  | [] => Normal r
  | (k, o) :: rest =>
      match add k o r with
      | Normal r' => add_all rest r'
      | Abrupt err r' => Abrupt err r'
      end
  end.

(** [add(key, {...})] with an object literal. *)
Definition register (key : string) (d : definition) (r : registry) : completion :=
  let '(o, r1) := new_object d r in add key o r1.

(** Registries produced from the empty one by the caller writing
    literals and calling [add], whatever the object and however the call
    ends. *)
Inductive reachable : registry → Prop :=
| reachable_init : reachable init
| reachable_object d r : reachable r → reachable (new_object d r).2
| reachable_ui x r : reachable r → reachable (new_ui x r).2
| reachable_add key o r : reachable r → reachable (registry_of (add key o r)).

(** The object at [o] is stored under no key other than [key]. *)
Definition owned_by (key : string) (o : oref) (r : registry) : Prop :=
  ∀ k, definitions r !! k = Some (Registered o) → k = key.

(** The same, where no object is ever handed to [add] under a second key. *)
Inductive reachable_own : registry → Prop :=
| own_init : reachable_own init
| own_object d r : reachable_own r → reachable_own (new_object d r).2
| own_ui x r : reachable_own r → reachable_own (new_ui x r).2
| own_add key o r :
    reachable_own r → owned_by key o r → reachable_own (registry_of (add key o r)).

(** The same, where every call of [add] returned. *)
Inductive reachable_normal : registry → Prop :=
| normal_init : reachable_normal init
| normal_object d r : reachable_normal r → reachable_normal (new_object d r).2
| normal_ui x r : reachable_normal r → reachable_normal (new_ui x r).2
| normal_add key o r r' :
    reachable_normal r → add key o r = Normal r' → reachable_normal r'.

(** Every entry reaches an allocated array. *)
Definition closed (r : registry) : Prop :=
  ∀ k e, definitions r !! k = Some e →
    ∃ a, edges_ref r e = Some a ∧ a < length (arrays r).

(** No entry other than the one of [k] reaches the array [a]. *)
Definition sole_owner (a : aref) (k : string) (r : registry) : Prop :=
  ∀ k' e', definitions r !! k' = Some e' → edges_ref r e' = Some a → k' = k.

(** No two keys share an array. *)
Definition separate (r : registry) : Prop :=
  ∀ k e a, definitions r !! k = Some e → edges_ref r e = Some a → sole_owner a k r.

(** Every requirement of a registered definition on another key is
    recorded in that key's [required_by] list. *)
Definition edges_recorded (r : registry) : Prop :=
  ∀ k o d req,
    definitions r !! k = Some (Registered o) → objects r !! o = Some d →
    req ∈ default [] (requires d) → req ≠ k →
    ∃ l, required_by_list r req = Some l ∧ k ∈ l.

(** The [required_by] list of [key] is the same after [add(key, o)] as it
    was before. *)
Definition edges_unchanged_by (key : string) (o : oref) (r : registry) : Prop :=
  required_by_list (registry_of (add key o r)) key = required_by_list r key.

End registry.

(** A definition that carries nothing but its requirements. *)
Definition plain (reqs : option (list string)) : @definition unit :=
  {| default_value := tt; requires := reqs; required_by := None;
     ui := None; changed := None |}.

(** A normalisation that never raises and one that always does. *)
Definition keep : unit → @prepared unit := Prepared.
Definition refuse : unit → @prepared unit := Failed "TypeError".

End Registry.

(** ** Profiles, provider and timers *)

Module Manager.

(** Address of a [SettingsProfile] instance in the object store. *)
Abbreviation addr := nat.

(** A profile id is an integer or a string.  Used as a property name of
    [__profile_ids] it is coerced to a string: an integer to its decimal
    writing (ids stay in the range where JavaScript prints integers in
    full). *)
Inductive id_t :=
| IdNum (n : Z)
| IdStr (s : string).

Global Instance id_eq_dec : EqDecision id_t.
Proof. solve_decision. Defined.

Definition to_key (i : id_t) : string :=
  match i with
  | IdNum n => pretty n
  | IdStr s => s
  end.

(** Truthiness of an id: [0] and the empty string are falsy. *)
Definition truthy_id (i : id_t) : bool :=
  match i with
  | IdNum n => negb (n =? 0)%Z
  | IdStr s => negb (bool_decide (s = ""))
  end.

(** Truthiness of an optional string: absent and empty are falsy. *)
Definition truthy_str (s : option string) : bool :=
  match s with
  | Some x => negb (bool_decide (x = ""))
  | None => false
  end.

(** *** Strings as the code reads them *)

(** [s.substr(n)] *)
Fixpoint substr (n : nat) (s : string) : string :=
  match n, s with
  | S n', String _ s' => substr n' s'
  | _, _ => s
  end.

(** [s.slice(0, n)] *)
Fixpoint slice_to (n : nat) (s : string) : string :=
  match n, s with
  | S n', String c s' => String c (slice_to n' s')
  | _, _ => ""
  end.

(** [s.indexOf(c)] for a one-character needle; [None] is [-1]. *)
Fixpoint indexOf (c : ascii) (s : string) : option nat :=
  match s with
  | "" => None
  | String c' s' => if decide (c' = c) then Some 0 else S <$> indexOf c s'
  end.

(** [s.startsWith(pre)] *)
Fixpoint startsWith (pre s : string) : bool :=
  match pre, s with
  | "", _ => true
  | String a pre', String b s' => bool_decide (a = b) && startsWith pre' s'
  | String _ _, "" => false
  end.

Definition colon : ascii := ":"%char.

(** [arr.indexOf(x)]; [None] is [-1]. *)
Fixpoint index_of {A} `{EqDecision A} (x : A) (l : list A) : option nat :=
  match l with
  | [] => None
  | y :: l' => if decide (y = x) then Some 0 else S <$> index_of x l'
  end.

(** [arr.splice(idx, 1)] *)
Definition remove_at {A} (i : nat) (l : list A) : list A := take i l ++ drop (S i) l.

(** A [Set] of ids: insertion ordered, without duplicates. *)
Definition set_add (x : id_t) (s : list id_t) : list id_t :=
  if decide (x ∈ s) then s else s ++ [x].

Definition set_delete (x : id_t) (s : list id_t) : list id_t :=
  filter (λ y, y ≠ x) s.

Definition new_set (l : list id_t) : list id_t := foldl (λ s x, set_add x s) [] l.

(** *** Outcome of a call that may raise *)

Inductive outcome (A : Type) :=
| Returned (m : A)
| Threw (err : string) (m : A).
Arguments Returned {A} m.
Arguments Threw {A} err m.

Definition state_of {A} (o : outcome A) : A :=
  match o with Returned m | Threw _ m => m end.

Section manager.
(** [Rule] is the type of one rule of a profile's context, [V] the type
    of stored setting values. *)
Context {Rule V : Type} `{EqDecision Rule}.

(** The value of [profile_data.context]: absent, [null], an array of
    rules (the current format), or a plain object (the earlier format) of
    which the code reads the truthiness of [moderator]. *)
Inductive context_t :=
| NoContext
| NullContext
| Rules (rs : list Rule)
| Legacy (moderator : bool).

Global Instance context_eq_dec : EqDecision context_t.
Proof. solve_decision. Defined.

(** One entry of the persisted profile list, [{id, name, context?, url?}]. *)
Record profile_data := ProfileData {
  pd_id : id_t;
  pd_name : option string;
  pd_context : context_t;
  pd_url : option string
}.

Global Instance profile_data_eq_dec : EqDecision profile_data.
Proof. solve_decision. Defined.

(** The argument of [createProfile]; an [id] it may carry is overwritten. *)
Record profile_options := ProfileOptions {
  opt_name : option string;
  opt_context : context_t;
  opt_url : option string
}.

(** Modelled from the spec: [SettingsProfile] (./profile is not under
    src/).  An instance keeps the raw persisted blob as [data], from which
    [id] and [url] are read, and its own listeners. *)
Record SettingsProfile := Profile {
  data : profile_data;
  __listeners : list (string * nat)
}.

(** Modelled from the spec: [new SettingsProfile(manager, data)], an
    instance around the blob, without listeners. *)
Definition new_SettingsProfile (d : profile_data) : SettingsProfile :=
  {| data := d; __listeners := [] |}.

(** Modelled from the spec: [profile.id], read from the blob. *)
Definition profile_id (p : SettingsProfile) : id_t := pd_id (data p).

(** Modelled from the spec: [profile.url], read from the blob. *)
Definition profile_url (p : SettingsProfile) : option string := pd_url (data p).

(** Modelled from the spec: [deep_equals] (utilities/object is not under
    src/), deep equality of two profile blobs. *)
Definition deep_equals (a b : profile_data) : bool := bool_decide (a = b).

(** What the provider holds under a key: the profile list under the
    reserved key ["profiles"], a setting value elsewhere. *)
Inductive stored :=
| Profiles (l : list profile_data)
| Setting (v : V).

(** Modelled from the spec: the storage provider (./providers is not
    under src/), an in-memory mirror of a flat key to value mapping with a
    readiness flag.  Stored values are JSON-serialisable and are held by
    value: a blob read from the provider is not the object an instance keeps
    as its [data]. *)
Record Provider := MkProvider {
  ready : bool;
  mirror : gmap string stored
}.

Inductive event :=
| ProfileCreated (p : option addr)
| ProfileChanged (p : option addr)
| ProfileDeleted (p : addr)
| ProfilesReordered.

(** Calls that leave the manager, in the order they are made. *)
Inductive effect :=
| Emit (e : event)
| ProfileEmitChanged (p : addr) (s_key : string) (new_value : option stored) (deleted : bool)
| SelectProfiles (c : nat)
| ProviderSet (key : string) (v : stored)
| Clear (p : addr)
| CheckUpdate (p : addr)
| LogInfo (msg : string).

Record SettingsManager := MkManager {
  __contexts : list nat;
  __profiles : list addr;
  __profile_ids : gmap string (option addr);
  heap : list SettingsProfile;
  provider : Provider;
  _update_timer : option nat;
  pending : list (nat * nat);
  next_handle : nat;
  log : list effect
}.

(** Assignments to single fields of the manager. *)
Definition set_profiles f (m : SettingsManager) : SettingsManager :=
  {| __contexts := __contexts m; __profiles := f (__profiles m);
     __profile_ids := __profile_ids m; heap := heap m; provider := provider m;
     _update_timer := _update_timer m; pending := pending m;
     next_handle := next_handle m; log := log m |}.

Definition set_profile_ids f (m : SettingsManager) : SettingsManager :=
  {| __contexts := __contexts m; __profiles := __profiles m;
     __profile_ids := f (__profile_ids m); heap := heap m; provider := provider m;
     _update_timer := _update_timer m; pending := pending m;
     next_handle := next_handle m; log := log m |}.

Definition set_heap f (m : SettingsManager) : SettingsManager :=
  {| __contexts := __contexts m; __profiles := __profiles m;
     __profile_ids := __profile_ids m; heap := f (heap m); provider := provider m;
     _update_timer := _update_timer m; pending := pending m;
     next_handle := next_handle m; log := log m |}.

Definition set_mirror f (m : SettingsManager) : SettingsManager :=
  {| __contexts := __contexts m; __profiles := __profiles m;
     __profile_ids := __profile_ids m; heap := heap m;
     provider := {| ready := ready (provider m); mirror := f (mirror (provider m)) |};
     _update_timer := _update_timer m; pending := pending m;
     next_handle := next_handle m; log := log m |}.

Definition set_timers (t : option nat) (ps : list (nat * nat)) (n : nat)
    (m : SettingsManager) : SettingsManager :=
  {| __contexts := __contexts m; __profiles := __profiles m;
     __profile_ids := __profile_ids m; heap := heap m; provider := provider m;
     _update_timer := t; pending := ps; next_handle := n; log := log m |}.

(** The calls [es] are made. *)
Definition tell (es : list effect) (m : SettingsManager) : SettingsManager :=
  {| __contexts := __contexts m; __profiles := __profiles m;
     __profile_ids := __profile_ids m; heap := heap m; provider := provider m;
     _update_timer := _update_timer m; pending := pending m;
     next_handle := next_handle m; log := log m ++ es |}.

(** [this.__profile_ids[key]] when truthy. *)
Definition by_key (ids : gmap string (option addr)) (key : string) : option addr :=
  ids !! key ≫= λ x, x.

(** [selectProfiles()] on every context. *)
Definition select_all (m : SettingsManager) : SettingsManager :=
  tell (SelectProfiles <$> __contexts m) m.

(** [this.__profiles.map(prof => prof.data)] *)
Definition profile_blobs (m : SettingsManager) : list profile_data :=
  omap (λ a, data <$> heap m !! a) (__profiles m).

(** [provider.set('profiles', ...)], then [selectProfiles()] on every
    context. *)
Definition _saveProfiles (m : SettingsManager) : SettingsManager :=
  let blobs := Profiles (profile_blobs m) in
  select_all (tell [ProviderSet "profiles" blobs]
                (set_mirror (λ s, <["profiles" := blobs]> s) m)).

(** [this.__profile_ids[key]] together with the object it names. *)
Definition lookup_profile (m : SettingsManager) (ids : gmap string (option addr))
    (key : string) : option (addr * SettingsProfile) :=
  a ← by_key ids key; inst ← heap m !! a; Some (a, inst).

(** *** [loadProfiles] *)

(** [SettingsProfile.Moderation] and [SettingsProfile.Default], the
    built-in blobs (declared in ./profile, not under src/). *)
Variables Moderation Default : profile_data.

(** "Monkey patch to the new profile format": a truthy context that is
    not an array becomes the Moderation context when its [moderator] is
    truthy, and [null] otherwise. *)
Definition patch_context (d : profile_data) : profile_data :=
  match pd_context d with
  | Legacy moderator =>
      {| pd_id := pd_id d; pd_name := pd_name d;
         pd_context := if moderator then pd_context Moderation else NullContext;
         pd_url := pd_url d |}
  | _ => d
  end.

(** [this.provider.get('profiles', [Moderation, Default])]; [None] when
    the key holds something that is not a profile list. *)
Definition raw_profiles (pr : Provider) : option (list profile_data) :=
  match mirror pr !! "profiles" with
  | None => Some [Moderation; Default]
  | Some (Profiles l) => Some l
  | Some (Setting _) => None
  end.

(** The locals of [loadProfiles] that the loop updates; the new
    [__profiles], [__profile_ids] and the objects are in [ld_manager]. *)
Record loading := Loading {
  ld_manager : SettingsManager;
  old_ids : list id_t;
  new_ids : list id_t;
  changed_ids : list id_t;
  reordered : bool;
  changed : bool
}.

(** [profiles.push(profile_ids[id] = profile)] *)
Definition place (id : id_t) (a : addr) (m : SettingsManager) : SettingsManager :=
  set_profiles (λ l, l ++ [a]) (set_profile_ids (λ ids, <[to_key id := Some a]> ids) m).

(** One iteration of [for(const profile_data of raw_profiles)]. *)
Definition load_step (old_profile_ids : gmap string (option addr))
    (old_profiles : list addr) (acc : loading) (profile_data : profile_data) : loading :=
  let m := ld_manager acc in
  let id := pd_id profile_data in
  let slot_id := length (__profiles m) in
  let old_profile := lookup_profile m old_profile_ids (to_key id) in
  let old_slot_id := old_profile ≫= λ o, index_of o.1 old_profiles in
  let old_ids' := set_delete id (old_ids acc) in
  let moved := negb (bool_decide (old_slot_id = Some slot_id)) in
  let reordered' := reordered acc || moved in
  let profile_data := patch_context profile_data in
  match old_profile with
  | Some (a, old) =>
      if deep_equals (data old) profile_data then
        {| ld_manager := place id a m;
           old_ids := old_ids'; new_ids := new_ids acc;
           changed_ids := changed_ids acc;
           reordered := reordered'; changed := changed acc || moved |}
      else
        let new_profile :=
          {| data := profile_data; __listeners := __listeners old |} in
        let emptied := {| data := data old; __listeners := [] |} in
        {| ld_manager :=
             place id (length (heap m))
               (set_heap (λ h, <[a := emptied]> h ++ [new_profile]) m);
           old_ids := old_ids'; new_ids := new_ids acc;
           changed_ids := set_add id (changed_ids acc);
           reordered := reordered'; changed := true |}
  | None =>
      {| ld_manager :=
           place id (length (heap m))
             (set_heap (λ h, h ++ [new_SettingsProfile profile_data]) m);
         old_ids := old_ids'; new_ids := set_add id (new_ids acc);
         changed_ids := changed_ids acc;
         reordered := reordered'; changed := true |}
  end.

(** The events of the end of [loadProfiles]. *)
Definition load_events (acc : loading) : list effect :=
  let m := ld_manager acc in
  (SelectProfiles <$> __contexts m)
  ++ ((λ id, Emit (ProfileCreated (by_key (__profile_ids m) (to_key id)))) <$> new_ids acc)
  ++ ((λ id, Emit (ProfileChanged (by_key (__profile_ids m) (to_key id)))) <$> changed_ids acc)
  ++ (if reordered acc then [Emit ProfilesReordered] else []).

(** The declarations at the head of [loadProfiles]: both fields are
    reset, and [old_ids] is the set of the ids of the instances listed so
    far. *)
Definition load_start (m : SettingsManager) : loading :=
  {| ld_manager := set_profiles (λ _, []) (set_profile_ids (λ _, ∅) m);
     old_ids := new_set (omap (λ a, profile_id <$> heap m !! a) (__profiles m));
     new_ids := []; changed_ids := [];
     reordered := false; changed := false |}.

(** [loadProfiles(suppress_events)].  A value under ["profiles"] that
    is not a list cannot be iterated: the call raises, the two fields already
    reset. *)
Definition loadProfiles (suppress_events : bool) (m : SettingsManager)
    : outcome SettingsManager :=
  let start := load_start m in
  match raw_profiles (provider m) with
  | None => Threw "TypeError" (ld_manager start)
  | Some raw =>
      let acc := foldl (load_step (__profile_ids m) (__profiles m)) start raw in
      if (negb (changed acc) && bool_decide (length (old_ids acc) = 0))
         || suppress_events
      then Returned (ld_manager acc)
      else Returned (tell (load_events acc) (ld_manager acc))
  end.

(** *** [createProfile] *)

(** The property name made from the counter [i]. *)
Definition number_key (i : nat) : string := to_key (IdNum (Z.of_nat i)).

(** [let i = 0; while( this.__profile_ids[i] ) i++;] run for at most
    [fuel] tests. *)
Fixpoint first_free (ids : gmap string (option addr)) (fuel i : nat) : nat :=
  match fuel with
  | 0 => i
  | S fuel' =>
      match by_key ids (number_key i) with
      | Some _ => first_free ids fuel' (S i)
      | None => i
      end
  end.

(** The loop started at [0]; more tests than [__profile_ids] has
    properties are never needed. *)
Definition fresh_id (m : SettingsManager) : nat :=
  first_free (__profile_ids m) (S (size (__profile_ids m))) 0.

(** [options || {}] *)
Definition no_options : profile_options :=
  {| opt_name := None; opt_context := NoContext; opt_url := None |}.

(** [createProfile(options)]: the new instance and the manager after the
    call. *)
Definition createProfile (options : option profile_options) (m : SettingsManager)
    : addr * SettingsManager :=
  let i := fresh_id m in
  let options := default no_options options in
  let blob :=
    {| pd_id := IdNum (Z.of_nat i);
       pd_name := if truthy_str (opt_name options) then opt_name options
                  else Some ("Unnamed Profile " +:+ number_key i);
       pd_context := opt_context options;
       pd_url := opt_url options |} in
  let profile := length (heap m) in
  let m1 := set_profile_ids (λ ids, <[number_key i := Some profile]> ids)
              (set_heap (λ h, h ++ [new_SettingsProfile blob]) m) in
  let m2 := set_profiles (λ l, profile :: l) m1 in
  (profile, tell [Emit (ProfileCreated (Some profile))] (_saveProfiles m2)).

(** *** [deleteProfile] *)

(** The argument: an id, or a [SettingsProfile] object. *)
Inductive profile_ref :=
| ById (i : id_t)
| ByObject (p : addr).

(** [if ( typeof id === 'object' && id.id ) id = id.id;] followed by the
    coercion to a property name; an object left in place is coerced to
    ["[object Object]"]. *)
Definition ref_key (m : SettingsManager) (r : profile_ref) : string :=
  match r with
  | ById i => to_key i
  | ByObject p =>
      match heap m !! p with
      | Some inst =>
          if truthy_id (profile_id inst) then to_key (profile_id inst)
          else "[object Object]"
      | None => "[object Object]"
      end
  end.

(** Modelled from the spec: [profile.clear()] erases every stored key
    with the profile's prefix [p:<id>:]. *)
Definition clear (a : addr) (inst : SettingsProfile) (m : SettingsManager)
    : SettingsManager :=
  let prefix := "p:" +:+ to_key (profile_id inst) +:+ ":" in
  tell [Clear a]
    (set_mirror (filter (λ kv, startsWith prefix kv.1 = false)) m).

(** [deleteProfile(id)] *)
Definition deleteProfile (r : profile_ref) (m : SettingsManager)
    : outcome SettingsManager :=
  let id := ref_key m r in
  match lookup_profile m (__profile_ids m) id with
  | None => Returned m
  | Some (profile, inst) =>
      if bool_decide (profile_id inst = IdNum 0) then
        Threw "cannot delete default profile" m
      else
        let m1 := set_profile_ids (λ ids, <[id := None]> ids) (clear profile inst m) in
        let m2 := match index_of profile (__profiles m1) with
                  | Some idx => set_profiles (remove_at idx) m1
                  | None => m1
                  end in
        Returned (tell [Emit (ProfileDeleted profile)] (_saveProfiles m2))
  end.

(** *** [_onProviderChange] *)

(** [_onProviderChange(key, new_value, deleted)] *)
Definition _onProviderChange (key : string) (new_value : option stored)
    (deleted : bool) (m : SettingsManager) : outcome SettingsManager :=
  if bool_decide (key = "profiles") then loadProfiles false m
  else if negb (startsWith "p:" key) then Returned m
  else
    let key := substr 2 key in
    match indexOf colon key with
    | None => Returned m
    | Some idx =>
        let s_key := substr (idx + 1) key in
        match by_key (__profile_ids m) (slice_to idx key) with
        | Some profile =>
            Returned (tell [ProfileEmitChanged profile s_key new_value deleted] m)
        | None => Returned m
        end
    end.

(** *** The update timer *)

(** The browser's timers: [pending] holds the handle and the delay of
    every timer that is armed, [setTimeout] hands out [next_handle], a
    positive integer never used before, and [clearTimeout] disarms. *)
Definition clearTimeout (h : nat) (ps : list (nat * nat)) : list (nat * nat) :=
  filter (λ t, t.1 ≠ h) ps.

(** [scheduleUpdates()] *)
Definition scheduleUpdates (m : SettingsManager) : SettingsManager :=
  let ps := match _update_timer m with
            | Some h => if bool_decide (h = 0) then pending m
                        else clearTimeout h (pending m)
            | None => pending m
            end in
  set_timers (Some (next_handle m)) (ps ++ [(next_handle m, 5000)])
    (S (next_handle m)) m.

(** [profile && profile.url] *)
Definition has_url (m : SettingsManager) (a : addr) : bool :=
  match heap m !! a with
  | Some inst => truthy_str (profile_url inst)
  | None => false
  end.

(** The profiles on which [checkUpdates] calls [checkUpdate()]. *)
Definition update_targets (m : SettingsManager) : list addr :=
  filter (λ a, has_url m a = true) (__profiles m).

(** The body of [checkUpdates] up to [Promise.all]: the calls made, and
    the profiles whose results are awaited. *)
Definition checkUpdates (m : SettingsManager) : SettingsManager * list addr :=
  (tell (CheckUpdate <$> update_targets m) m, update_targets m).

(** The callback of [Promise.all(promises).then]: [data] holds the
    truthiness of each result. *)
Definition successes (data : list bool) : nat :=
  foldl (λ success thing, if thing : bool then S success else success) 0 data.

(** The line written by [this.log.info]. *)
Definition summary (data : list bool) : string :=
  "Successfully refreshed " +:+ pretty (successes data) +:+ " of "
    +:+ pretty (length data) +:+ " profiles from remote URLs.".

Definition settled (data : list bool) (m : SettingsManager) : SettingsManager :=
  tell [LogInfo (summary data)] m.

(** The timer with handle [h] expires: it leaves the pending set and its
    callback [() => this.checkUpdates()] runs. *)
Definition expire (h : nat) (m : SettingsManager) : SettingsManager :=
  if bool_decide (h ∈ (pending m).*1) then
    (checkUpdates
       (set_timers (_update_timer m) (clearTimeout h (pending m)) (next_handle m) m)).1
  else m.

(** *** [getFullBackup] *)

Record backup := Backup {
  version : Z;
  type : string;
  values : gmap string stored
}.

(** An asynchronous function: finished, or suspended at
    [await this.provider.awaitReady()] with the rest of its body, which
    reads the provider as it is when the function resumes. *)
Inductive task (A : Type) :=
| Done (a : A)
| AwaitReady (k : Provider → task A).
Arguments Done {A} a.
Arguments AwaitReady {A} k.

(** The event loop offers the provider to a task: the task goes on when
    the provider is ready and stays suspended otherwise. *)
Definition resume {A} (pr : Provider) (t : task A) : task A :=
  match t with
  | Done a => Done a
  | AwaitReady k => if ready pr then k pr else t
  end.

(** [this.provider.entries()] *)
Definition entries (pr : Provider) : list (string * stored) := map_to_list (mirror pr).

(** [getFullBackup()] *)
Definition getFullBackup : task backup :=
  AwaitReady (λ pr,
    Done {| version := 2;
            type := "full";
            values := foldl (λ out kv, <[kv.1 := kv.2]> out) ∅ (entries pr) |}).

(** *** States *)

(** The manager as its constructor leaves it.  The constructor sets
    [__contexts] to an empty array; [contexts] are the contexts that have
    registered themselves since (the main context at least). *)
Definition fresh (contexts : list nat) (pr : Provider) : SettingsManager :=
  {| __contexts := contexts; __profiles := []; __profile_ids := ∅; heap := [];
     provider := pr; _update_timer := None; pending := []; next_handle := 1;
     log := [] |}.

(** What the timer operations can do to a manager. *)
Inductive timer_run (m0 : SettingsManager) : SettingsManager → Prop :=
| run_start : timer_run m0 m0
| run_schedule m : timer_run m0 m → timer_run m0 (scheduleUpdates m)
| run_expire h m : timer_run m0 m → h ∈ (pending m).*1 → timer_run m0 (expire h m)
| run_other m m' :
    timer_run m0 m → _update_timer m' = _update_timer m →
    pending m' = pending m → next_handle m' = next_handle m → timer_run m0 m'.

(** The handle counter is positive, and the only timer that can be
    pending is the one [_update_timer] names. *)
Definition timers_ok (m : SettingsManager) : Prop :=
  1 ≤ next_handle m
  ∧ (pending m = []
     ∨ ∃ h, _update_timer m = Some h ∧ h ≠ 0 ∧ pending m = [(h, 5000)]).

(** A timer for the next sweep is pending once the timer [h] has expired
    and its sweep has run. *)
Definition rearmed_after_sweep (h : nat) (m : SettingsManager) : Prop :=
  ∃ h', (h', 5000) ∈ pending (expire h m).

(** The profile list and the persisted list agree slot by slot: each
    instance's data is deep-equal to the persisted entry. *)
Definition in_sync (m : SettingsManager) (raw : list profile_data) : Prop :=
  mirror (provider m) !! "profiles" = Some (Profiles raw)
  ∧ Forall2 (λ a d, ∃ inst, heap m !! a = Some inst ∧ deep_equals (data inst) d = true)
      (__profiles m) raw.

(** The same, against the persisted entries as [loadProfiles] compares
    them, that is after [patch_context]. *)
Definition in_sync_patched (m : SettingsManager) (raw : list profile_data) : Prop :=
  mirror (provider m) !! "profiles" = Some (Profiles raw)
  ∧ Forall2 (λ a d, ∃ inst, heap m !! a = Some inst
                     ∧ deep_equals (data inst) (patch_context d) = true)
      (__profiles m) raw.

(** [__profile_ids] indexes [__profiles]: every listed instance is found
    under its own id, and is listed once. *)
Definition indexed (m : SettingsManager) : Prop :=
  NoDup (__profiles m)
  ∧ ∀ a, a ∈ __profiles m →
      ∃ inst, heap m !! a = Some inst
              ∧ by_key (__profile_ids m) (to_key (profile_id inst)) = Some a.

(** What holds of the locals of [loadProfiles] while every entry seen
    so far was matched with the instance of its slot: [seen] is the part of
    the list rebuilt so far and [rest] the part still to come. *)
Definition reusing (m : SettingsManager) (seen rest : list addr) (acc : loading) : Prop :=
  __profiles (ld_manager acc) = seen
  ∧ heap (ld_manager acc) = heap m
  ∧ log (ld_manager acc) = log m
  ∧ new_ids acc = [] ∧ changed_ids acc = []
  ∧ reordered acc = false ∧ changed acc = false
  ∧ (∀ x, x ∈ old_ids acc →
       ∃ a inst, a ∈ rest ∧ heap m !! a = Some inst ∧ profile_id inst = x)
  ∧ (∀ a, a ∈ seen →
       ∃ inst, heap m !! a = Some inst
               ∧ by_key (__profile_ids (ld_manager acc)) (to_key (profile_id inst))
                 = Some a).

(** A reload that emits nothing and keeps every instance in place. *)
Definition quiet_reload (m : SettingsManager) : Prop :=
  ∃ m', loadProfiles false m = Returned m'
        ∧ log m' = log m ∧ __profiles m' = __profiles m ∧ heap m' = heap m.

End manager.

Arguments Done {Rule V A} a.
Arguments AwaitReady {Rule V A} k.

(** The built-in blobs and a provider, as the examples below take them. *)
Definition sample_Moderation : @profile_data string :=
  {| pd_id := IdNum 1; pd_name := Some "Moderation";
     pd_context := Rules ["Moderator"]; pd_url := None |}.

Definition sample_Default : @profile_data string :=
  {| pd_id := IdNum 0; pd_name := Some "Default Profile";
     pd_context := NoContext; pd_url := None |}.

Definition empty_provider : @Provider string Z := {| ready := true; mirror := ∅ |}.

(** The manager after its first [loadProfiles(true)] on an empty provider:
    Moderation (id 1) at address 0, Default (id 0) at address 1. *)
Definition started : @SettingsManager string Z :=
  state_of (loadProfiles sample_Moderation sample_Default true (fresh [0] empty_provider)).

(** ... then after [createProfile()]: ids 0, 1 and 2 are in use. *)
Definition three_profiles : @SettingsManager string Z := (createProfile None started).2.

(** ... then after [deleteProfile(1)]: ids 0 and 2 are in use. *)
Definition two_profiles : @SettingsManager string Z :=
  state_of (deleteProfile (ById (IdNum 1)) three_profiles).

(** A manager whose only profile was created with a context in the
    earlier object format, [{moderator: false}]. *)
Definition legacy_profile : @SettingsManager string Z :=
  (createProfile
     (Some {| opt_name := Some "Legacy"; opt_context := Legacy false; opt_url := None |})
     (fresh [0] empty_provider)).2.

(** A manager loaded from a list that holds the same blob twice: two
    instances with the id 1, of which [__profile_ids] names the second. *)
Definition twin_blob : @profile_data string :=
  {| pd_id := IdNum 1; pd_name := Some "Twin"; pd_context := NoContext; pd_url := None |}.

Definition twin_profiles : @SettingsManager string Z :=
  state_of (loadProfiles sample_Moderation sample_Default true
              (fresh [0] {| ready := true;
                            mirror := {["profiles" := Profiles [twin_blob; twin_blob]]} |})).

End Manager.

(** ** Path tokens of a UI descriptor ([format_path_tokens]) *)

Module PathTokens.
Import Manager.

Section tokens.
(** [M] holds the other own properties of a token object ([page], [tab],
    options), [no_more] is their absence in a new object literal, and
    [toSnakeCase] is the extension of [String.prototype] (declared outside
    src/) used to derive keys. *)
Context {M : Type}.
Variable no_more : M.
Variable toSnakeCase : string → string.

(** An element of [tokens]: a string, or an object with optional [key] and
    [title]. *)
Inductive token :=
| Text (s : string)
| Obj (key : option string) (title : option string) (more : M).

(** The body of the loop for one element; [None] when it raises:
    [token.title.toSnakeCase()] on an object that has no title. *)
Definition format_token (t : token) : option token :=
  match t with
  | Text s => Some (Obj (Some (toSnakeCase s)) (Some s) no_more)
  | Obj key title more =>
      if truthy_str key then Some t
      else match title with
           | Some x => Some (Obj (Some (toSnakeCase x)) title more)
           | None => None
           end
  end.

(** [format_path_tokens(tokens)]: the array is rewritten in place from
    the left, so a raise leaves the elements before it rewritten and the rest
    as they were. *)
Fixpoint format_path_tokens (tokens : list token) : outcome (list token) :=
  match tokens with
  | [] => Returned []
  | t :: rest =>
      match format_token t with
      | None => Threw "TypeError" tokens
      | Some t' =>
          match format_path_tokens rest with
          | Returned l => Returned (t' :: l)
          | Threw err l => Threw err (t' :: l)
          end
      end
  end.

(** A token the loop can handle: a string, an object with a truthy key,
    or an object with a title. *)
Definition formattable (t : token) : Prop :=
  match t with
  | Text _ => True
  | Obj key title _ => truthy_str key = true ∨ is_Some title
  end.

(** [token.title] *)
Definition title_of (t : token) : option string :=
  match t with
  | Text s => Some s
  | Obj _ title _ => title
  end.

Definition is_object (t : token) : Prop :=
  match t with Text _ => False | Obj _ _ _ => True end.

End tokens.
End PathTokens.

(** ** Reordering and saving profiles ([moveProfile], [saveProfile], [profile]) *)

Module Profiles.
Import Manager.

(** [Array.prototype.splice]: where the operation starts for an array of
    length [len] and an integer [start], negative values counting from the
    end. *)
Definition splice_start (len : nat) (start : Z) : nat :=
  if (start <? 0)%Z then Z.to_nat (Z.max (Z.of_nat len + start) 0)
  else Z.to_nat (Z.min start (Z.of_nat len)).

(** [arr.splice(start, 1)]: the removed elements and what is left. *)
Definition splice_out {A} (start : Z) (l : list A) : list A * list A :=
  let s := splice_start (length l) start in
  (take 1 (drop s l), take s l ++ drop (S s) l).

(** [arr.splice(start, 0, ...items)] *)
Definition splice_in {A} (start : Z) (items l : list A) : list A :=
  let s := splice_start (length l) start in
  take s l ++ items ++ drop s l.

Section profiles.
Context {Rule V : Type} `{EqDecision Rule}.

Implicit Types (m : @SettingsManager Rule V).

(** [profile(id)]: [this.__profile_ids[id] || null] *)
Definition profile (id : id_t) m : option addr := by_key (__profile_ids m) (to_key id).

(** [profiles.indexOf(profile)] as a number. *)
Definition position (a : addr) (l : list addr) : Z :=
  match index_of a l with
  | Some i => Z.of_nat i
  | None => (-1)%Z
  end.

(** [moveProfile(id, index)] for an integer [index]. *)
Definition moveProfile (r : profile_ref) (index : Z) m : SettingsManager :=
  match by_key (__profile_ids m) (ref_key m r) with
  | None => m
  | Some profile =>
      let idx := position profile (__profiles m) in
      if bool_decide (idx = index) then m
      else
        let '(removed, rest) := splice_out idx (__profiles m) in
        tell [Emit ProfilesReordered]
          (_saveProfiles (set_profiles (λ _, splice_in index removed rest) m))
  end.

(** [saveProfile(id)] *)
Definition saveProfile (r : profile_ref) m : SettingsManager :=
  match by_key (__profile_ids m) (ref_key m r) with
  | None => m
  | Some profile => tell [Emit (ProfileChanged (Some profile))] (_saveProfiles m)
  end.

(** The stored profile list is the list of the blobs of the instances in
    memory. *)
Definition synced m : Prop :=
  mirror (provider m) !! "profiles" = Some (Profiles (profile_blobs m)).

(** The four operations on profiles. *)
Inductive operation :=
| Create (options : option (@profile_options Rule))
| Delete (r : profile_ref)
| Move (r : profile_ref) (index : Z)
| Save (r : profile_ref).

Definition run (op : operation) m : SettingsManager :=
  match op with
  | Create options => (createProfile options m).2
  | Delete r => state_of (deleteProfile r m)
  | Move r index => moveProfile r index m
  | Save r => saveProfile r m
  end.

(** What a reload may add to the log: [selectProfiles] on a context,
    [profile-created], [profile-changed] and [profiles-reordered]. *)
Definition reload_effect (e : @effect Rule V) : Prop :=
  match e with
  | SelectProfiles _ | Emit (ProfileCreated _) | Emit (ProfileChanged _)
  | Emit ProfilesReordered => True
  | _ => False
  end.

(** Every object of the store [h] is still in [h'], with the same data. *)
Definition data_kept (h h' : list (@SettingsProfile Rule)) : Prop :=
  ∀ a inst, h !! a = Some inst → ∃ inst', h' !! a = Some inst' ∧ data inst' = data inst.

(** All the listeners held by the instances of the store. *)
Definition all_listeners (h : list (@SettingsProfile Rule)) : list (string * nat) :=
  concat (__listeners <$> h).

(** The object at [a] holds the entry [d] as [loadProfiles] stores it,
    that is with its context patched. *)
Definition holds (Moderation : @profile_data Rule) (h : list (@SettingsProfile Rule))
    (a : addr) (d : @profile_data Rule) : Prop :=
  ∃ inst, h !! a = Some inst ∧ data inst = patch_context Moderation d.

(** The entry of every slot is held by its instance, which is the one
    [__profile_ids] names under the entry's id. *)
Definition slots (Moderation : @profile_data Rule) m (ds : list (@profile_data Rule)) : Prop :=
  Forall2 (λ a d, holds Moderation (heap m) a d
                  ∧ by_key (__profile_ids m) (to_key (pd_id d)) = Some a)
    (__profiles m) ds.

End profiles.
End Profiles.

(** ** The add-on card ([addon.vue]) *)

Module Addon.

Definition newline : ascii := "010"%char.

(** [s.split(/\n/)]: the pieces between line feeds, one piece at least. *)
Fixpoint split_lines (s : string) : list string :=
  match s with
  | "" => [""]
  | String c s' =>
      if decide (c = newline) then "" :: split_lines s'
      else match split_lines s' with
           | line :: lines => String c line :: lines
           | [] => [String c ""]
           end
  end.

(** [lines.join('\n')] *)
Fixpoint join_lines (lines : list string) : string :=
  match lines with
  | [] => ""
  | [line] => line
  | line :: rest => line +:+ String newline (join_lines rest)
  end.

(** The fields of the add-on record that the description is made from. *)
Record addon := MkAddon {
  description : string;
  description_i18n : option string
}.

(** The part of the component's data that [data()], [updateDescription]
    and [toggle] set. *)
Record card := Card {
  card_description : string;
  multi_line : bool;
  first_line : string;
  expanded : bool
}.

Section card.
(** [t] is the translation lookup [this.t(key, phrase)]. *)
Variable t : string → string → string.

(** The description shown: translated when the add-on has a truthy
    [description_i18n]. *)
Definition described (a : addon) : string :=
  match description_i18n a with
  | Some key => if bool_decide (key = "") then description a else t key (description a)
  | None => description a
  end.

(** [data()] *)
Definition data (a : addon) : card :=
  let lines := split_lines (described a) in
  {| card_description := described a;
     multi_line := bool_decide (1 < length lines);
     first_line := default "" (head lines);
     expanded := false |}.

(** [updateDescription()] *)
Definition updateDescription (a : addon) (c : card) : card :=
  let lines := split_lines (described a) in
  {| card_description := described a;
     multi_line := bool_decide (1 < length lines);
     first_line := default "" (head lines);
     expanded := expanded c |}.

End card.

(** [toggle()] *)
Definition toggle (c : card) : card :=
  {| card_description := card_description c; multi_line := multi_line c;
     first_line := first_line c; expanded := negb (expanded c) |}.

(** [show_description] *)
Definition show_description (c : card) : string :=
  if expanded c then card_description c else first_line c.

(** The string has no line feed. *)
Definition one_line (s : string) : Prop := Manager.indexOf newline s = None.

End Addon.

Module RegistryFacts.
Import Registry.

Local Set Warnings "-clear-no-such-hyp".

Section facts.
Context {V UI : Type}.
Variable prepare_ui : UI → @prepared UI.

Implicit Types (r : @registry V UI) (e : entry) (d : @definition V).
Implicit Types (c : @completion V UI).

Local Abbreviation add := (add prepare_ui).
Local Abbreviation normalise_ui := (normalise_ui prepare_ui).

(** *** One iteration of the loop *)

Lemma edges_ref_objects r r' e :
  objects r' = objects r → edges_ref r' e = edges_ref r e.
Proof. intros Ho. destruct e; simpl; by rewrite ?Ho. Qed.

(** The two things an iteration can do. *)
Lemma note_cases key r q r' :
  note_requirement key r q = Some r' →
  (∃ e a, definitions r !! q = Some e ∧ edges_ref r e = Some a ∧ r' = push a key r)
  ∨ (definitions r !! q = None
     ∧ r' = set_definitions (<[q := Placeholder (length (arrays r))]>)
              (set_arrays (λ l, l ++ [[key]]) r)).
Proof.
  unfold note_requirement. destruct (definitions r !! q) as [e|] eqn:Hq.
  - destruct (edges_ref r e) as [a|] eqn:Ha; simpl; [|done].
    intros [= <-]. left. by exists e, a.
  - intros [= <-]. by right.
Qed.

(** What an iteration leaves alone. *)
Lemma note_frame key r q r' :
  note_requirement key r q = Some r' →
  objects r' = objects r ∧ uis r' = uis r
  ∧ listeners r' = listeners r ∧ emitted r' = emitted r
  ∧ length (arrays r) ≤ length (arrays r')
  ∧ (∀ k e, definitions r !! k = Some e → definitions r' !! k = Some e)
  ∧ dom (definitions r') = {[q]} ∪ dom (definitions r)
  ∧ (∀ a l, arrays r !! a = Some l → ∃ l', arrays r' !! a = Some (l ++ l')).
Proof.
  intros [(e & a & Hq & Ha & ->)|[Hq ->]]%note_cases; simpl.
  - split_and!; try done.
    + by rewrite length_alter.
    + apply elem_of_dom_2 in Hq. set_solver.
    + intros b l Hl. destruct (decide (a = b)) as [->|Hne].
      * exists [key]. by rewrite list_lookup_alter_eq, Hl.
      * exists []. by rewrite list_lookup_alter_ne, app_nil_r.
  - split_and!; try done.
    + rewrite length_app. lia.
    + intros k e Hk. rewrite lookup_insert_ne; [done|]. intros ->. congruence.
    + by rewrite dom_insert_L.
    + intros b l Hl. exists []. rewrite app_nil_r, lookup_app_l; [done|].
      by eapply lookup_lt_Some.
Qed.

(** On a closed registry an iteration returns, and keeps the registry
    closed and the ownership of the arrays. *)
Lemma note_returns key r q :
  closed r →
  ∃ r', note_requirement key r q = Some r'
        ∧ closed r'
        ∧ (∀ a k, a < length (arrays r) → sole_owner a k r → sole_owner a k r')
        ∧ (separate r → separate r').
Proof.
  intros Hc. unfold note_requirement.
  destruct (definitions r !! q) as [e|] eqn:Hq.
  - destruct (Hc q e Hq) as (a & Ha & Hlt). rewrite Ha. simpl.
    eexists. split; [done|]. split_and!.
    + intros k e' Hk. destruct (Hc k e' Hk) as (b & Hb & Hblt).
      exists b. split; [done|]. simpl. by rewrite length_alter.
    + done.
    + done.
  - eexists. split; [done|]. split_and!.
    + intros k e. simpl. rewrite length_app. simpl.
      destruct (decide (q = k)) as [->|Hne].
      * rewrite lookup_insert_eq. intros [= <-]. exists (length (arrays r)).
        split; [done|]. lia.
      * rewrite lookup_insert_ne by done. intros Hk.
        destruct (Hc k e Hk) as (b & Hb & Hblt). exists b. split; [done|]. lia.
    + intros a k Hlt Hown k' e'. simpl.
      destruct (decide (q = k')) as [->|Hne].
      * rewrite lookup_insert_eq. intros [= <-]. simpl. intros [= <-]. lia.
      * rewrite lookup_insert_ne by done. apply Hown.
    + intros Hsep k e a. simpl.
      destruct (decide (q = k)) as [->|Hne].
      * rewrite lookup_insert_eq. intros [= <-]. simpl. intros [= <-] k' e'. simpl.
        destruct (decide (k = k')) as [->|Hne']; [done|].
        rewrite lookup_insert_ne by done. intros Hk' He'.
        destruct (Hc k' e' Hk') as (b & Hb & Hblt).
        change (edges_ref r e' = Some (length (arrays r))) in He'. simplify_eq. lia.
      * rewrite lookup_insert_ne by done. intros Hk He k' e'. simpl.
        destruct (decide (q = k')) as [->|Hne'].
        -- rewrite lookup_insert_eq. intros [= <-]. simpl. intros [= <-].
           destruct (Hc k e Hk) as (b & Hb & Hblt).
           change (edges_ref r e = Some (length (arrays r))) in He. simplify_eq. lia.
        -- rewrite lookup_insert_ne by done. by apply (Hsep k e a).
Qed.

(** The array that only [k] reaches grows by [key] exactly in the
    iterations about [k]. *)
Lemma note_owned key r q r' k e a l :
  definitions r !! k = Some e → edges_ref r e = Some a →
  arrays r !! a = Some l → sole_owner a k r →
  note_requirement key r q = Some r' →
  arrays r' !! a = Some (if decide (q = k) then l ++ [key] else l).
Proof.
  intros Hk He Hl Hown [(eq & aq & Hq & Haq & ->)|[Hq ->]]%note_cases; simpl.
  - destruct (decide (q = k)) as [->|Hne].
    + assert (eq = e) as -> by congruence. assert (aq = a) as -> by congruence.
      by rewrite list_lookup_alter_eq, Hl.
    + rewrite list_lookup_alter_ne; [done|]. intros ->.
      by apply Hne, (Hown q eq).
  - rewrite decide_False by (intros ->; congruence).
    rewrite lookup_app_l; [done|]. by eapply lookup_lt_Some.
Qed.

(** *** The whole loop *)

Lemma loop_frame key reqs : ∀ r,
  let c := note_requirements key reqs r in
  objects (registry_of c) = objects r ∧ uis (registry_of c) = uis r
  ∧ listeners (registry_of c) = listeners r ∧ emitted (registry_of c) = emitted r
  ∧ length (arrays r) ≤ length (arrays (registry_of c))
  ∧ (∀ k e, definitions r !! k = Some e → definitions (registry_of c) !! k = Some e)
  ∧ dom (definitions r) ⊆ dom (definitions (registry_of c))
  ∧ dom (definitions (registry_of c)) ⊆ list_to_set reqs ∪ dom (definitions r)
  ∧ (∀ r', c = Normal r' →
       dom (definitions r') = list_to_set reqs ∪ dom (definitions r))
  ∧ (∀ a l, arrays r !! a = Some l →
       ∃ l', arrays (registry_of c) !! a = Some (l ++ l')).
Proof.
  induction reqs as [|q reqs IH]; intros r; simpl.
  - split_and!; try done.
    + set_solver.
    + intros r' [= <-]. set_solver.
    + intros a l Hl. exists []. by rewrite app_nil_r.
  - destruct (note_requirement key r q) as [r1|] eqn:Hq; simpl.
    + destruct (note_frame key r q r1 Hq)
        as (Ho & Hu & Hli & Hem & Hlen & Hkeep & Hdom & Harr).
      destruct (IH r1) as (Ho' & Hu' & Hli' & Hem' & Hlen' & Hkeep' & Hsub & Hsup
                           & Hdom' & Harr').
      split_and!; try congruence.
      * lia.
      * eauto.
      * set_solver.
      * set_solver.
      * intros r' Hr'. rewrite (Hdom' r' Hr'). set_solver.
      * intros a l Hl. destruct (Harr a l Hl) as (l1 & Hl1).
        destruct (Harr' a _ Hl1) as (l2 & Hl2). exists (l1 ++ l2).
        by rewrite app_assoc.
    + split_and!; try done.
      * set_solver.
      * intros a l Hl. exists []. by rewrite app_nil_r.
Qed.

Lemma loop_returns key reqs : ∀ r,
  closed r →
  ∃ r', note_requirements key reqs r = Normal r'
        ∧ closed r'
        ∧ (∀ a k, a < length (arrays r) → sole_owner a k r → sole_owner a k r')
        ∧ (separate r → separate r').
Proof.
  induction reqs as [|q reqs IH]; intros r Hc; simpl.
  - by exists r.
  - destruct (note_returns key r q Hc) as (r1 & Hq & Hc1 & Hown1 & Hsep1).
    rewrite Hq.
    destruct (IH r1 Hc1) as (r' & Hr' & Hc' & Hown' & Hsep').
    exists r'. split_and!; [done..| |by auto].
    intros a k Hlt Hown. apply Hown'; [|by apply Hown1].
    destruct (note_frame key r q r1 Hq) as (_ & _ & _ & _ & Hlen & _). lia.
Qed.

Lemma loop_owned key reqs : ∀ r r' k e a l,
  closed r → definitions r !! k = Some e → edges_ref r e = Some a →
  arrays r !! a = Some l → sole_owner a k r →
  note_requirements key reqs r = Normal r' →
  arrays r' !! a = Some (l ++ replicate (length (filter (λ q, q = k) reqs)) key).
Proof.
  induction reqs as [|q reqs IH]; intros r r' k e a l Hc Hk He Hl Hown; simpl.
  - intros [= <-]. by rewrite app_nil_r.
  - destruct (note_returns key r q Hc) as (r1 & Hq & Hc1 & Hown1 & _).
    rewrite Hq. intros Hr'.
    destruct (note_frame key r q r1 Hq) as (Ho & _ & _ & _ & _ & Hkeep & _).
    pose proof (note_owned key r q r1 k e a l Hk He Hl Hown Hq) as Hl1.
    assert (a < length (arrays r)) as Hlt by (by eapply lookup_lt_Some).
    rewrite (IH r1 r' k e a _ Hc1 (Hkeep k e Hk)
               ltac:(by rewrite (edges_ref_objects r r1 e Ho)) Hl1
               (Hown1 a k Hlt Hown) Hr').
    f_equal. rewrite filter_cons. destruct (decide (q = k)); simpl; [|done].
    by rewrite <-app_assoc.
Qed.

(** A required key that has no entry gets a placeholder array of its
    own. *)
Lemma loop_absent key reqs : ∀ r r' k,
  closed r → definitions r !! k = None → k ∈ reqs →
  note_requirements key reqs r = Normal r' →
  ∃ a, definitions r' !! k = Some (Placeholder a)
       ∧ arrays r' !! a
         = Some (replicate (length (filter (λ q, q = k) reqs)) key).
Proof.
  induction reqs as [|q reqs IH]; intros r r' k Hc Hk Hin; simpl.
  - by apply not_elem_of_nil in Hin.
  - destruct (note_returns key r q Hc) as (r1 & Hq & Hc1 & _ & _).
    rewrite Hq. intros Hr'. rewrite filter_cons.
    destruct (decide (q = k)) as [->|Hne].
    + destruct (note_cases key r k r1 Hq) as [(e & a & He & _)|[_ ->]]; [congruence|].
      set (r1 := set_definitions _ _) in *.
      assert (definitions r1 !! k = Some (Placeholder (length (arrays r)))) as Hk1
        by apply lookup_insert_eq.
      assert (arrays r1 !! length (arrays r) = Some [key]) as Hl1.
      { simpl. by rewrite lookup_app_r, Nat.sub_diag by lia. }
      assert (sole_owner (length (arrays r)) k r1) as Hown.
      { intros k' e'. simpl. destruct (decide (k = k')) as [->|Hne]; [done|].
        rewrite lookup_insert_ne by done. intros Hk' He'.
        destruct (Hc k' e' Hk') as (b & Hb & Hblt).
        change (edges_ref r e' = Some (length (arrays r))) in He'. simplify_eq. lia. }
      exists (length (arrays r)). split.
      * destruct (loop_frame key reqs r1) as (_ & _ & _ & _ & _ & Hkeep & _).
        rewrite Hr' in Hkeep. by apply Hkeep.
      * by rewrite (loop_owned key reqs r1 r' k _ _ [key] Hc1 Hk1 eq_refl Hl1 Hown Hr').
    + apply elem_of_cons in Hin as [->|Hin]; [done|].
      apply (IH r1 r' k Hc1); [|done..].
      destruct (note_frame key r q r1 Hq) as (_ & _ & _ & _ & _ & _ & Hdom & _).
      apply not_elem_of_dom. rewrite Hdom. apply not_elem_of_dom in Hk. set_solver.
Qed.

(** Lists are kept, up to what is appended, by whatever leaves the entries
    and the objects alone and only appends to the arrays. *)
Lemma list_kept r r' key l :
  objects r' = objects r →
  (∀ k e, definitions r !! k = Some e → definitions r' !! k = Some e) →
  (∀ a l, arrays r !! a = Some l → ∃ l', arrays r' !! a = Some (l ++ l')) →
  required_by_list r key = Some l →
  ∃ l', required_by_list r' key = Some (l ++ l').
Proof.
  intros Ho Hkeep Harr. unfold required_by_list.
  destruct (definitions r !! key) as [e|] eqn:Hk; simpl; [|done].
  rewrite (Hkeep key e Hk). simpl. rewrite (edges_ref_objects r r' e Ho).
  destruct (edges_ref r e) as [a|]; simpl; [|done]. apply Harr.
Qed.

(** After the loop every required key has an entry whose list holds
    [key]. *)
Lemma loop_records key reqs : ∀ r r' req,
  closed r → note_requirements key reqs r = Normal r' → req ∈ reqs →
  ∃ l, required_by_list r' req = Some l ∧ key ∈ l.
Proof.
  induction reqs as [|q reqs IH]; intros r r' req Hc; simpl.
  - by intros _ ?%not_elem_of_nil.
  - destruct (note_returns key r q Hc) as (r1 & Hq & Hc1 & _ & _).
    rewrite Hq. intros Hr' [->|Hin]%elem_of_cons; [|by eapply IH].
    assert (∃ l, required_by_list r1 q = Some l ∧ key ∈ l) as (l & Hl & Hkey).
    { unfold required_by_list.
      destruct (note_cases key r q r1 Hq) as [(e & a & He & Ha & ->)|[Hn ->]]; simpl.
      - rewrite He. simpl. change (edges_ref (push a key r) e) with (edges_ref r e).
        rewrite Ha. simpl. destruct (Hc q e He) as (b & Hb & Hblt).
        assert (b = a) as -> by congruence.
        destruct (lookup_lt_is_Some_2 _ _ Hblt) as [l0 Hl0].
        exists (l0 ++ [key]). rewrite list_lookup_alter_eq, Hl0. split; [done|].
        apply elem_of_app. right. apply list_elem_of_here.
      - rewrite lookup_insert_eq. simpl. rewrite lookup_app_r, Nat.sub_diag by lia.
        exists [key]. split; [done|]. apply list_elem_of_here. }
    destruct (loop_frame key reqs r1) as (Ho & _ & _ & _ & _ & Hkeep & _ & _ & _ & Harr).
    rewrite Hr' in Ho, Hkeep, Harr. simpl in *.
    destruct (list_kept r1 r' q l Ho Hkeep Harr Hl) as (l' & Hl').
    exists (l ++ l'). split; [done|]. apply elem_of_app. by left.
Qed.

(** Whatever is found in an array after the loop was there before, or is
    [key]. *)
Lemma loop_elements key reqs : ∀ r c a l' x,
  note_requirements key reqs r = c →
  arrays (registry_of c) !! a = Some l' → x ∈ l' →
  x = key ∨ ∃ l, arrays r !! a = Some l ∧ x ∈ l.
Proof.
  induction reqs as [|q reqs IH]; intros r c a l' x; simpl.
  - intros <-. simpl. intros Hl Hx. right. by exists l'.
  - destruct (note_requirement key r q) as [r1|] eqn:Hq.
    + intros Hc Hl Hx. destruct (IH r1 c a l' x Hc Hl Hx) as [->|(l & Hl1 & Hxl)];
        [by left|].
      destruct (note_cases key r q r1 Hq) as [(e & b & He & Hb & ->)|[Hn ->]];
        simpl in Hl1.
      * destruct (decide (b = a)) as [->|Hne].
        -- rewrite list_lookup_alter_eq in Hl1.
           destruct (arrays r !! a) as [l0|] eqn:Hl0; simpl in Hl1; [|done].
           injection Hl1 as <-. apply elem_of_app in Hxl as [?|Hxk];
             [right; by exists l0|].
           apply list_elem_of_singleton in Hxk as ->. by left.
        -- rewrite list_lookup_alter_ne in Hl1 by done. right. by exists l.
      * destruct (decide (a < length (arrays r))) as [Hlt|Hge].
        -- rewrite lookup_app_l in Hl1 by done. right. by exists l.
        -- rewrite lookup_app_r in Hl1 by lia.
           destruct (a - length (arrays r)) as [|n]; simpl in Hl1; [|done].
           injection Hl1 as <-. apply list_elem_of_singleton in Hxl as ->. by left.
    + intros <-. simpl. intros Hl Hx. right. by exists l'.
Qed.

(** The loop stores placeholders only. *)
Lemma loop_registered key reqs : ∀ r c k o,
  note_requirements key reqs r = c →
  definitions (registry_of c) !! k = Some (Registered o) →
  definitions r !! k = Some (Registered o).
Proof.
  induction reqs as [|q reqs IH]; intros r c k o; simpl.
  - by intros <-.
  - destruct (note_requirement key r q) as [r1|] eqn:Hq; [|by intros <-].
    intros Hc Hk. pose proof (IH r1 c k o Hc Hk) as Hk1.
    destruct (note_cases key r q r1 Hq) as [(e & a & He & Ha & ->)|[Hn ->]];
      simpl in Hk1; [done|].
    destruct (decide (q = k)) as [->|Hne].
    + by rewrite lookup_insert_eq in Hk1.
    + by rewrite lookup_insert_ne in Hk1.
Qed.

(** *** The head and the end of [add] *)

Lemma adopt_frame key o d r :
  definitions (adopt key o d r) = definitions r
  ∧ uis (adopt key o d r) = uis r
  ∧ listeners (adopt key o d r) = listeners r
  ∧ emitted (adopt key o d r) = emitted r
  ∧ length (arrays r) ≤ length (arrays (adopt key o d r))
  ∧ (∀ a l, arrays r !! a = Some l → arrays (adopt key o d r) !! a = Some l)
  ∧ objects (adopt key o d r)
    = <[o := {| default_value := default_value d;
                requires := Some (default [] (requires d));
                required_by := (edges_for key r).1;
                ui := ui d;
                changed := changed d |}]> (objects r).
Proof.
  unfold adopt, edges_for. destruct (definitions r !! key) as [e|]; simpl.
  - by split_and!.
  - split_and!; try done.
    + rewrite length_app. lia.
    + intros a l Hl. rewrite lookup_app_l; [done|]. by eapply lookup_lt_Some.
Qed.

(** The array that [add] gives to the object. *)
Lemma adopt_array key o d r :
  closed r →
  ∃ a, (edges_for key r).1 = Some a
       ∧ a < length (arrays (adopt key o d r))
       ∧ match definitions r !! key with
         | Some e => edges_ref r e = Some a ∧ arrays (adopt key o d r) = arrays r
         | None => a = length (arrays r)
                   ∧ arrays (adopt key o d r) = arrays r ++ [[]]
         end.
Proof.
  intros Hc. unfold adopt, edges_for.
  destruct (definitions r !! key) as [e|] eqn:Hk; simpl.
  - destruct (Hc key e Hk) as (a & Ha & Hlt). by exists a.
  - exists (length (arrays r)). rewrite length_app. simpl. split_and!; [done|lia|done..].
Qed.

Lemma adopt_closed key o d r :
  closed r → objects r !! o = Some d → closed (adopt key o d r).
Proof.
  intros Hc Ho k e.
  destruct (adopt_frame key o d r) as (Hd & _ & _ & _ & Hlen & _ & Hobj).
  destruct (adopt_array key o d r Hc) as (a & Ha & Hlt & _).
  rewrite Hd. intros Hk. destruct (Hc k e Hk) as (b & Hb & Hblt).
  destruct e as [b'|o']; simpl in *.
  - exists b. split; [done|]. lia.
  - rewrite Hobj. destruct (decide (o = o')) as [<-|Hne].
    + rewrite list_lookup_insert_eq by (by eapply lookup_lt_Some). simpl.
      exists a. by rewrite Ha.
    + rewrite list_lookup_insert_ne by done. exists b. split; [done|]. lia.
Qed.

(** Where the object is stored under no other key, the entries reach the
    arrays they reached. *)
Lemma adopt_edges key o d r k e :
  owned_by key o r → objects r !! o = Some d →
  definitions r !! k = Some e →
  edges_ref (adopt key o d r) e = edges_ref r e.
Proof.
  intros Hown Ho Hk.
  destruct (adopt_frame key o d r) as (_ & _ & _ & _ & _ & _ & Hobj).
  destruct e as [b|o']; simpl; [done|]. rewrite Hobj.
  destruct (decide (o = o')) as [<-|Hne].
  - rewrite list_lookup_insert_eq by (by eapply lookup_lt_Some). simpl.
    assert (k = key) as -> by (by apply Hown).
    unfold edges_for. rewrite Hk. simpl. by rewrite Ho.
  - by rewrite list_lookup_insert_ne.
Qed.

Lemma adopt_separate key o d r :
  closed r → separate r → owned_by key o r → objects r !! o = Some d →
  separate (adopt key o d r)
  ∧ ∀ a, (edges_for key r).1 = Some a → sole_owner a key (adopt key o d r).
Proof.
  intros Hc Hsep Hown Ho.
  destruct (adopt_frame key o d r) as (Hd & _).
  split.
  - intros k e a. rewrite Hd. intros Hk He k' e'. rewrite Hd. intros Hk' He'.
    rewrite (adopt_edges key o d r k e) in He by done.
    rewrite (adopt_edges key o d r k' e') in He' by done.
    by apply (Hsep k e a Hk He k' e').
  - intros a Ha k' e'. rewrite Hd. intros Hk' He'.
    rewrite (adopt_edges key o d r k' e') in He' by done.
    unfold edges_for in Ha. destruct (definitions r !! key) as [e|] eqn:Hk; simpl in Ha.
    + by apply (Hsep key e a Hk Ha k' e').
    + injection Ha as <-. destruct (Hc k' e' Hk') as (b & Hb & Hblt).
      simplify_eq. lia.
Qed.

Lemma normalise_ui_frame u r :
  definitions (registry_of (normalise_ui u r)) = definitions r
  ∧ objects (registry_of (normalise_ui u r)) = objects r
  ∧ arrays (registry_of (normalise_ui u r)) = arrays r
  ∧ listeners (registry_of (normalise_ui u r)) = listeners r
  ∧ emitted (registry_of (normalise_ui u r)) = emitted r.
Proof.
  unfold Registry.normalise_ui. destruct u as [u|]; [|done].
  destruct (uis r !! u) as [x|]; [|done]. by destruct (prepare_ui x).
Qed.

(** *** The call as a whole *)

(** The ways [add] can end. *)
Lemma add_cases key o r :
  (objects r !! o = None ∧ add key o r = Abrupt "TypeError" r)
  ∨ ∃ d c, objects r !! o = Some d
      ∧ note_requirements key (default [] (requires d)) (adopt key o d r) = c
      ∧ ((∃ err r3, c = Abrupt err r3 ∧ add key o r = Abrupt err r3)
         ∨ (∃ r3 err r4, c = Normal r3 ∧ normalise_ui (ui d) r3 = Abrupt err r4
                         ∧ add key o r = Abrupt err r4)
         ∨ (∃ r3 r4, c = Normal r3 ∧ normalise_ui (ui d) r3 = Normal r4
                     ∧ add key o r = Normal (store key o d r4))).
Proof.
  unfold Registry.add. destruct (objects r !! o) as [d|]; [|by left].
  right. exists d, (note_requirements key (default [] (requires d)) (adopt key o d r)).
  split; [done|]. split; [done|].
  destruct (note_requirements _ _ _) as [r3|err r3].
  - destruct (Registry.normalise_ui prepare_ui (ui d) r3) as [r4|err r4] eqn:Hn.
    + right. right. by exists r3, r4.
    + right. left. by exists r3, err, r4.
  - left. by exists err, r3.
Qed.

(** On a closed registry the loop of [add] runs to its end. *)
Lemma add_closed_cases key o r d :
  closed r → objects r !! o = Some d →
  ∃ r3, note_requirements key (default [] (requires d)) (adopt key o d r) = Normal r3
    ∧ closed r3
    ∧ ((∃ err r4, normalise_ui (ui d) r3 = Abrupt err r4 ∧ add key o r = Abrupt err r4)
       ∨ (∃ r4, normalise_ui (ui d) r3 = Normal r4
                ∧ add key o r = Normal (store key o d r4))).
Proof.
  intros Hc Ho.
  destruct (loop_returns key (default [] (requires d)) (adopt key o d r)
              (adopt_closed key o d r Hc Ho)) as (r3 & Hr3 & Hc3 & _).
  exists r3. split; [done|]. split; [done|].
  unfold Registry.add. rewrite Ho, Hr3.
  destruct (Registry.normalise_ui prepare_ui (ui d) r3) as [r4|err r4].
  - right. by exists r4.
  - left. by exists err, r4.
Qed.

Lemma closed_frame r r' :
  closed r → definitions r' = definitions r → objects r' = objects r →
  length (arrays r) ≤ length (arrays r') → closed r'.
Proof.
  intros Hc Hd Ho Hlen k e. rewrite Hd. intros Hk.
  destruct (Hc k e Hk) as (a & Ha & Hlt). exists a.
  rewrite (edges_ref_objects r r' e Ho). split; [done|]. lia.
Qed.

Lemma add_closed key o r : closed r → closed (registry_of (add key o r)).
Proof.
  intros Hc. destruct (objects r !! o) as [d|] eqn:Ho.
  - destruct (add_closed_cases key o r d Hc Ho)
      as (r3 & Hr3 & Hc3 & [(err & r4 & Hn & ->)|(r4 & Hn & ->)]); simpl;
      destruct (normalise_ui_frame (ui d) r3) as (Hd & Hob & Har & _);
      rewrite Hn in Hd, Hob, Har; simpl in *.
    + apply (closed_frame r3); [done..|]. by rewrite Har.
    + assert (closed r4) as Hc4 by (apply (closed_frame r3); [done..|by rewrite Har]).
      intros k e. simpl. destruct (decide (key = k)) as [<-|Hne].
      * rewrite lookup_insert_eq. intros [= <-]. simpl. rewrite Hob.
        destruct (loop_frame key (default [] (requires d)) (adopt key o d r))
          as (Ho3 & _ & _ & _ & Hlen3 & _). rewrite Hr3 in Ho3, Hlen3. simpl in *.
        rewrite Ho3. destruct (adopt_frame key o d r) as (_ & _ & _ & _ & _ & _ & ->).
        rewrite list_lookup_insert_eq by (by eapply lookup_lt_Some). simpl.
        destruct (adopt_array key o d r Hc) as (a & Ha & Hlt & _).
        exists a. split; [done|]. rewrite Har. lia.
      * rewrite lookup_insert_ne by done. apply Hc4.
  - unfold Registry.add. by rewrite Ho.
Qed.

Lemma reachable_closed r : reachable prepare_ui r → closed r.
Proof.
  induction 1 as [|d r _ IH|x r _ IH|key o r _ IH].
  - intros k e. simpl. by rewrite lookup_empty.
  - intros k e Hk. destruct (IH k e Hk) as (a & Ha & Hlt). exists a. split; [|done].
    destruct e as [b|o']; simpl in *; [done|].
    destruct (objects r !! o') as [d'|] eqn:Ho'; simpl in Ha; [|done].
    by rewrite lookup_app_l, Ho' by (by eapply lookup_lt_Some).
  - done.
  - by apply add_closed.
Qed.

(** The registry after [add], from the registry after the loop. *)
Lemma add_result key o r d :
  closed r → objects r !! o = Some d →
  ∃ r3, note_requirements key (default [] (requires d)) (adopt key o d r) = Normal r3
    ∧ closed r3
    ∧ objects (registry_of (add key o r)) = objects r3
    ∧ arrays (registry_of (add key o r)) = arrays r3
    ∧ ((∃ err r', add key o r = Abrupt err r' ∧ definitions r' = definitions r3)
       ∨ (∃ r', add key o r = Normal r'
                ∧ definitions r' = <[key := Registered o]> (definitions r3))).
Proof.
  intros Hc Ho.
  destruct (add_closed_cases key o r d Hc Ho)
    as (r3 & Hr3 & Hc3 & [(err & r4 & Hn & Hadd)|(r4 & Hn & Hadd)]);
    destruct (normalise_ui_frame (ui d) r3) as (Hd & Hob & Har & _);
    rewrite Hn in Hd, Hob, Har; simpl in *;
    exists r3; rewrite Hadd; simpl; split_and!; try done.
  - left. by exists err, r4.
  - right. eexists. split; [done|]. simpl. by rewrite Hd.
Qed.

(** The object as [add] leaves it. *)
Lemma add_object key o r d :
  closed r → objects r !! o = Some d →
  objects (registry_of (add key o r))
  = <[o := {| default_value := default_value d;
              requires := Some (default [] (requires d));
              required_by := (edges_for key r).1;
              ui := ui d;
              changed := changed d |}]> (objects r).
Proof.
  intros Hc Ho. destruct (add_result key o r d Hc Ho) as (r3 & Hr3 & _ & -> & _).
  destruct (loop_frame key (default [] (requires d)) (adopt key o d r)) as (Ho3 & _).
  rewrite Hr3 in Ho3. simpl in Ho3. rewrite Ho3.
  by destruct (adopt_frame key o d r) as (_ & _ & _ & _ & _ & _ & ->).
Qed.

(** The list of a key that has an entry, after [add], where no two keys
    share an array and the object is stored under no other key. *)
Lemma add_list key o r d k l :
  closed r → separate r → owned_by key o r → objects r !! o = Some d →
  required_by_list r k = Some l →
  required_by_list (registry_of (add key o r)) k
  = Some (l ++ replicate (length (filter (λ q, q = k) (default [] (requires d)))) key).
Proof.
  intros Hc Hsep Hown Ho Hl. unfold required_by_list in Hl.
  destruct (definitions r !! k) as [e|] eqn:Hk; simpl in Hl; [|done].
  destruct (edges_ref r e) as [a|] eqn:He; simpl in Hl; [|done].
  destruct (adopt_frame key o d r) as (Hd2 & _ & _ & _ & _ & Harr2 & _).
  destruct (adopt_separate key o d r Hc Hsep Hown Ho) as (Hsep2 & _).
  assert (definitions (adopt key o d r) !! k = Some e) as Hk2 by (by rewrite Hd2).
  assert (edges_ref (adopt key o d r) e = Some a) as He2
    by (by rewrite (adopt_edges key o d r k e)).
  destruct (add_result key o r d Hc Ho) as (r3 & Hr3 & Hc3 & Hob & Har & Hdef).
  pose proof (loop_owned key _ _ r3 k e a l (adopt_closed key o d r Hc Ho)
                Hk2 He2 (Harr2 a l Hl) (Hsep2 k e a Hk2 He2) Hr3) as Hl3.
  destruct (loop_frame key (default [] (requires d)) (adopt key o d r))
    as (Ho3 & _ & _ & _ & _ & Hkeep & _).
  rewrite Hr3 in Ho3, Hkeep. simpl in Ho3, Hkeep.
  assert (edges_ref (registry_of (add key o r)) e = Some a) as He'.
  { rewrite <-He2. apply edges_ref_objects. congruence. }
  pose proof (add_object key o r d Hc Ho) as Hobj.
  unfold required_by_list.
  destruct Hdef as [(err & r' & Hadd & Hd')|(r' & Hadd & Hd')];
    rewrite Hadd in *; simpl in *; rewrite Hd'.
  - rewrite (Hkeep k e Hk2). simpl. by rewrite He', Har.
  - destruct (decide (key = k)) as [<-|Hne].
    + rewrite lookup_insert_eq. simpl. rewrite Hobj.
      rewrite list_lookup_insert_eq by (by eapply lookup_lt_Some). simpl.
      unfold edges_for. rewrite Hk. simpl. by rewrite He, Har.
    + rewrite lookup_insert_ne by done. rewrite (Hkeep k e Hk2). simpl.
      by rewrite He', Har.
Qed.

(** Separation is kept by [add] of an object stored under no other key. *)
Lemma add_separate key o r :
  closed r → separate r → owned_by key o r →
  separate (registry_of (add key o r)).
Proof.
  intros Hc Hsep Hown. destruct (objects r !! o) as [d|] eqn:Ho;
    [|by unfold Registry.add; rewrite Ho].
  destruct (adopt_separate key o d r Hc Hsep Hown Ho) as (Hsep2 & Hsole2).
  destruct (adopt_array key o d r Hc) as (a0 & Ha0 & Hlt0 & _).
  destruct (loop_returns key (default [] (requires d)) (adopt key o d r)
              (adopt_closed key o d r Hc Ho)) as (r3' & Hr3' & _ & Hown3 & Hsep3).
  destruct (add_result key o r d Hc Ho) as (r3 & Hr3 & Hc3 & Hob & Har & Hdef).
  assert (r3' = r3) as -> by congruence.
  pose proof (Hsep3 Hsep2) as Hs3.
  pose proof (Hown3 a0 key Hlt0 (Hsole2 a0 Ha0)) as Hsole3.
  assert (∀ e, edges_ref (registry_of (add key o r)) e = edges_ref r3 e) as Hedge
    by (intros e; by apply edges_ref_objects).
  destruct Hdef as [(err & r' & Hadd & Hd')|(r' & Hadd & Hd')];
    rewrite Hadd in *; simpl in *.
  - intros k e a. rewrite Hd', Hedge. intros Hk He k' e'. rewrite Hd', Hedge.
    by apply (Hs3 k e a).
  - assert (edges_ref r' (Registered o) = Some a0) as Hnew.
    { simpl. pose proof (add_object key o r d Hc Ho) as Hobj. rewrite Hadd in Hobj.
      simpl in Hobj. rewrite Hobj.
      rewrite list_lookup_insert_eq by (by eapply lookup_lt_Some). done. }
    intros k e a. rewrite Hd'. intros Hk He k' e'. rewrite Hd'. intros Hk' He'.
    destruct (decide (key = k)) as [<-|Hne], (decide (key = k')) as [<-|Hne'];
      [done| | |].
    + rewrite lookup_insert_eq in Hk. rewrite lookup_insert_ne in Hk' by done.
      injection Hk as <-. rewrite Hnew in He. injection He as <-.
      rewrite Hedge in He'. by apply (Hsole3 k' e').
    + rewrite lookup_insert_eq in Hk'. rewrite lookup_insert_ne in Hk by done.
      injection Hk' as <-. rewrite Hnew in He'. injection He' as <-.
      rewrite Hedge in He. symmetry. by apply (Hsole3 k e).
    + rewrite lookup_insert_ne in Hk, Hk' by done.
      rewrite Hedge in He, He'. by apply (Hs3 k e a Hk He k' e').
Qed.

Lemma new_object_frame d r :
  closed r → separate r →
  closed (new_object d r).2 ∧ separate (new_object d r).2
  ∧ ∀ k e, definitions r !! k = Some e →
      edges_ref (new_object d r).2 e = edges_ref r e.
Proof.
  intros Hc Hsep.
  assert (∀ k e, definitions r !! k = Some e →
            edges_ref (new_object d r).2 e = edges_ref r e) as Hedge.
  { intros k e Hk. destruct (Hc k e Hk) as (a & Ha & _).
    destruct e as [b|o']; simpl in *; [done|].
    destruct (objects r !! o') as [d'|] eqn:Ho'; simpl in Ha; [|done].
    by rewrite lookup_app_l, Ho' by (by eapply lookup_lt_Some). }
  split_and!; [| |done].
  - intros k e Hk. destruct (Hc k e Hk) as (a & Ha & Hlt). exists a.
    by rewrite (Hedge k e Hk).
  - intros k e a Hk He k' e' Hk' He'. simpl in Hk, Hk'.
    rewrite (Hedge k e Hk) in He. rewrite (Hedge k' e' Hk') in He'.
    by apply (Hsep k e a Hk He k' e').
Qed.

Lemma own_wf r : reachable_own prepare_ui r → closed r ∧ separate r.
Proof.
  induction 1 as [|d r _ [Hc Hsep]|x r _ IH|key o r _ [Hc Hsep] Hown].
  - split; intros k e; simpl; by rewrite lookup_empty.
  - by destruct (new_object_frame d r Hc Hsep) as (? & ? & _).
  - done.
  - split; [by apply add_closed|by apply add_separate].
Qed.

Lemma own_reachable r : reachable_own prepare_ui r → reachable prepare_ui r.
Proof. induction 1; by constructor. Qed.

(** Recorded requirements stay recorded through [add] of an object
    stored under no other key, and those of the object are recorded. *)
Lemma add_edges_recorded key o r :
  closed r → separate r → owned_by key o r → edges_recorded r →
  edges_recorded (registry_of (add key o r)).
Proof.
  intros Hc Hsep Hown Hrec. destruct (objects r !! o) as [d|] eqn:Ho;
    [|by unfold Registry.add; rewrite Ho].
  pose proof (add_object key o r d Hc Ho) as Hobj.
  destruct (adopt_frame key o d r) as (Hd2 & _).
  destruct (add_result key o r d Hc Ho) as (r3 & Hr3 & Hc3 & Hob & Har & Hdef).
  destruct (loop_frame key (default [] (requires d)) (adopt key o d r))
    as (_ & _ & _ & _ & _ & Hkeep & _).
  rewrite Hr3 in Hkeep. simpl in Hkeep.
  (* The lists of the keys that had one only grow. *)
  assert (∀ req l k, required_by_list r req = Some l → k ∈ l →
            ∃ l', required_by_list (registry_of (add key o r)) req = Some l' ∧ k ∈ l')
    as Hgrow.
  { intros req l k Hl Hkl. rewrite (add_list key o r d req l Hc Hsep Hown Ho Hl).
    eexists. split; [done|]. apply elem_of_app. by left. }
  (* The requirements of the object itself are recorded by the loop. *)
  assert (∀ req, req ∈ default [] (requires d) → req ≠ key →
            ∃ l, required_by_list (registry_of (add key o r)) req = Some l ∧ key ∈ l)
    as Hnew.
  { intros req Hreq Hne.
    destruct (loop_records key _ _ r3 req (adopt_closed key o d r Hc Ho) Hr3 Hreq)
      as (l & Hl & Hkl).
    exists l. split; [|done]. unfold required_by_list in *.
    destruct (definitions r3 !! req) as [e|] eqn:He; simpl in Hl; [|done].
    assert (definitions (registry_of (add key o r)) !! req = Some e) as ->.
    { destruct Hdef as [(err & r' & Hadd & Hd')|(r' & Hadd & Hd')];
        rewrite Hadd; simpl; rewrite Hd'; [done|].
      by rewrite lookup_insert_ne. }
    simpl. rewrite (edges_ref_objects r3 _ e) by done. by rewrite Har. }
  (* A definition stored after the call was stored before, or is the
     object under [key]. *)
  assert (∀ k o', definitions (registry_of (add key o r)) !! k = Some (Registered o') →
            definitions r !! k = Some (Registered o') ∨ (k = key ∧ o' = o)) as Horigin.
  { intros k o' Hk. rewrite <-Hd2.
    destruct Hdef as [(err & r' & Hadd & Hd')|(r' & Hadd & Hd')];
      rewrite Hadd in Hk; simpl in Hk; rewrite Hd' in Hk.
    - left. by apply (loop_registered key _ _ _ k o' Hr3).
    - destruct (decide (key = k)) as [<-|Hkk].
      + rewrite lookup_insert_eq in Hk. injection Hk as <-. by right.
      + rewrite lookup_insert_ne in Hk by done. left.
        by apply (loop_registered key _ _ _ k o' Hr3). }
  intros k o' d' req Hk Ho' Hreq Hne.
  rewrite Hobj in Ho'.
  destruct (decide (o = o')) as [<-|Hoo].
  - rewrite list_lookup_insert_eq in Ho' by (by eapply lookup_lt_Some).
    injection Ho' as <-. simpl in Hreq.
    assert (k = key) as ->; [|by apply Hnew].
    destruct (Horigin k o Hk) as [Hk0|[-> _]]; [by apply Hown|done].
  - rewrite list_lookup_insert_ne in Ho' by done.
    destruct (Horigin k o' Hk) as [Hk0|[_ ->]]; [|done].
    destruct (Hrec k o' d' req Hk0 Ho' Hreq Hne) as (l & Hl & Hkl).
    by apply (Hgrow req l k).
Qed.


(** What [add] leaves alone, however it ends. *)
Lemma add_frame key o r :
  (∀ k e, k ≠ key → definitions r !! k = Some e →
          definitions (registry_of (add key o r)) !! k = Some e)
  ∧ (∀ e, definitions r !! key = Some e →
          definitions (registry_of (add key o r)) !! key = Some e
          ∨ definitions (registry_of (add key o r)) !! key = Some (Registered o))
  ∧ (∀ d, objects r !! o = Some d →
       objects (registry_of (add key o r))
       = <[o := {| default_value := default_value d;
                   requires := Some (default [] (requires d));
                   required_by := (edges_for key r).1;
                   ui := ui d;
                   changed := changed d |}]> (objects r))
  ∧ (objects r !! o = None → add key o r = Abrupt "TypeError" r)
  ∧ (∀ a l, arrays r !! a = Some l →
       ∃ l', arrays (registry_of (add key o r)) !! a = Some (l ++ l')).
Proof.
  destruct (add_cases key o r) as [[Ho ->]|(d & c & Ho & Hc & Hend)]; simpl.
  - split_and!; try done.
    + by left.
    + intros d Hd. congruence.
    + intros a l Hl. exists []. by rewrite app_nil_r.
  - destruct (adopt_frame key o d r) as (Hd2 & _ & _ & _ & _ & Harr2 & Hobj2).
    destruct (loop_frame key (default [] (requires d)) (adopt key o d r))
      as (Ho3 & _ & _ & _ & _ & Hkeep & _ & _ & _ & Harr3).
    rewrite Hc in Ho3, Hkeep, Harr3.
    assert (∀ a l, arrays r !! a = Some l →
              ∃ l', arrays (registry_of c) !! a = Some (l ++ l')) as Harr
      by (intros a l Hl; by apply Harr3, Harr2).
    rewrite Hd2 in Hkeep.
    destruct Hend as [(err & r3 & -> & ->)|[(r3 & err & r4 & -> & Hn & ->)
                                            |(r3 & r4 & -> & Hn & ->)]]; simpl in *.
    + split_and!; [by auto|by left; auto| |congruence|done].
      intros d0 Hd0. assert (d0 = d) as -> by congruence. congruence.
    + destruct (normalise_ui_frame (ui d) r3) as (Hd4 & Hob4 & Har4 & _).
      rewrite Hn in Hd4, Hob4, Har4. simpl in *.
      split_and!; [by rewrite Hd4; auto|by left; rewrite Hd4; auto| |congruence|].
      * intros d0 Hd0. assert (d0 = d) as -> by congruence. congruence.
      * by rewrite Har4.
    + destruct (normalise_ui_frame (ui d) r3) as (Hd4 & Hob4 & Har4 & _).
      rewrite Hn in Hd4, Hob4, Har4. simpl in *.
      split_and!.
      * intros k e Hne Hk. rewrite lookup_insert_ne by done. rewrite Hd4. auto.
      * intros e _. right. apply lookup_insert_eq.
      * intros d0 Hd0. assert (d0 = d) as -> by congruence. congruence.
      * congruence.
      * by rewrite Har4.
Qed.

Lemma adopt_elements key o d r a l x :
  arrays (adopt key o d r) !! a = Some l → x ∈ l → arrays r !! a = Some l.
Proof.
  unfold adopt, edges_for. destruct (definitions r !! key); simpl; [done|].
  intros Hl Hx. destruct (decide (a < length (arrays r))) as [Hlt|Hge].
  - by rewrite lookup_app_l in Hl.
  - rewrite lookup_app_r in Hl by lia.
    destruct (a - length (arrays r)) as [|n]; simpl in Hl; [|done].
    injection Hl as <-. by apply not_elem_of_nil in Hx.
Qed.

(** Each element of each array is the key of a stored definition, as long
    as every call of [add] returned. *)
Lemma normal_elements r :
  reachable_normal prepare_ui r →
  ∀ a l k, arrays r !! a = Some l → k ∈ l →
    ∃ o, definitions r !! k = Some (Registered o).
Proof.
  induction 1 as [|d r _ IH|x r _ IH|key o r r' _ IH Hadd]; try done.
  intros a l k Hl Hk.
  destruct (add_cases key o r) as [[_ Hr]|(d & c & Ho & Hc & Hend)]; [congruence|].
  destruct Hend as [(err & r3 & _ & Hr)|[(r3 & err & r4 & _ & _ & Hr)
                                          |(r3 & r4 & -> & Hn & Hr)]]; [congruence..|].
  assert (r' = store key o d r4) as -> by congruence.
  destruct (normalise_ui_frame (ui d) r3) as (Hd4 & _ & Har4 & _).
  rewrite Hn in Hd4, Har4. simpl in *. rewrite Har4 in Hl.
  destruct (decide (k = key)) as [->|Hne];
    [exists o; apply lookup_insert_eq|].
  rewrite lookup_insert_ne by done. rewrite Hd4.
  destruct (loop_elements key _ _ _ a l k Hc Hl Hk) as [?|(l0 & Hl0 & Hk0)]; [done|].
  destruct (IH a l0 k (adopt_elements key o d r a l0 k Hl0 Hk0) Hk0) as (o' & Ho').
  exists o'.
  destruct (loop_frame key (default [] (requires d)) (adopt key o d r))
    as (_ & _ & _ & _ & _ & Hkeep & _).
  rewrite Hc in Hkeep. apply Hkeep.
  by destruct (adopt_frame key o d r) as (-> & _).
Qed.

(** The fields of an object that [add] does not write to. *)
Lemma add_fields key o r o' d0 :
  objects r !! o' = Some d0 →
  ∃ d1, objects (registry_of (add key o r)) !! o' = Some d1
        ∧ default_value d1 = default_value d0
        ∧ default [] (requires d1) = default [] (requires d0)
        ∧ (is_Some (requires d0) → requires d1 = requires d0)
        ∧ ui d1 = ui d0 ∧ changed d1 = changed d0.
Proof.
  intros Ho'. destruct (add_frame key o r) as (_ & _ & Hobj & Hnone & _).
  destruct (objects r !! o) as [d|] eqn:Ho.
  - rewrite (Hobj d eq_refl). destruct (decide (o = o')) as [<-|Hne].
    + rewrite list_lookup_insert_eq by (by eapply lookup_lt_Some).
      assert (d0 = d) as -> by congruence.
      eexists. split; [done|]. simpl. split_and!; try done.
      by intros [l ->].
    + rewrite list_lookup_insert_ne by done. by exists d0.
  - rewrite (Hnone eq_refl). by exists d0.
Qed.



End facts.

(** *** At concrete registries *)

(** C1: registering a key that lists itself in [requires], while the key
    has no entry yet, leaves the key out of its own [required_by] list, so
    the edge from the key to itself is recorded in one direction only. *)
Theorem self_requirement_not_recorded :
  let r := registry_of (register keep "a" (plain (Some ["a"])) init) in
  register keep "a" (plain (Some ["a"])) init = Normal r
  ∧ ∃ o d, definitions r !! "a" = Some (Registered o)
           ∧ objects r !! o = Some d
           ∧ "a" ∈ default [] (requires d)
           ∧ required_by_list r "a" = Some [].
Proof.
  split; [reflexivity|]. eexists _, _.
  split_and!; [reflexivity|reflexivity| |reflexivity]. simpl. set_solver.
Qed.

(** The same definition registered over an existing entry does record the
    edge. *)
Lemma self_requirement_recorded_on_existing :
  required_by_list
    (registry_of (register keep "a" (plain (Some ["a"]))
                    (registry_of (register keep "a" (plain None) init)))) "a"
  = Some ["a"].
Proof. reflexivity. Qed.


(** Where one object is stored under two keys the list of the
    re-registered key grows although the new definition does not require
    the key: the object under ["b"] and ["K"] shares one array. *)
Lemma re_registration_shared_object :
  let r0 := (new_object (plain None) init).2 in
  let r1 := registry_of (add keep "K" 0 (registry_of (add keep "b" 0 r0))) in
  let r2 := (new_object (plain (Some ["b"])) r1).2 in
  required_by_list r2 "K" = Some []
  ∧ required_by_list (registry_of (add keep "K" 1 r2)) "K" = Some ["K"].
Proof. split; reflexivity. Qed.

(** Where the UI normalisation raises the entry is not replaced. *)
Lemma re_registration_raise_keeps_entry :
  let r0 := registry_of (register refuse "K" (plain None) init) in
  let '(u, r1) := new_ui tt r0 in
  let '(o, r2) :=
    new_object {| default_value := tt; requires := None; required_by := None;
                  ui := Some u; changed := None |} r1 in
  definitions r2 !! "K" = Some (Registered 0)
  ∧ ∃ r', add refuse "K" o r2 = Abrupt "TypeError" r'
          ∧ definitions r' !! "K" = Some (Registered 0).
Proof. split; [reflexivity|]. eexists. split; reflexivity. Qed.

Lemma unshared_example :
  reachable_own keep (registry_of (register keep "b" (plain (Some ["a"])) init)).
Proof.
  apply (own_add keep "b" 0 (new_object (plain (Some ["a"])) init).2).
  - apply own_object, own_init.
  - intros k. simpl. by rewrite lookup_empty.
Qed.


End RegistryFacts.

Module ManagerFacts.
Import Manager.

(** *** Strings *)

Lemma substr_app (a b : string) : substr (String.length a) (a +:+ b) = b.
Proof. induction a as [|c a IH]; simpl; [by destruct b|done]. Qed.

Lemma slice_to_app (a b : string) : slice_to (String.length a) (a +:+ b) = a.
Proof. induction a as [|c a IH]; simpl; [by destruct b|by rewrite IH]. Qed.

Lemma indexOf_app (c : ascii) (a b : string) :
  indexOf c a = None → indexOf c (a +:+ String c b) = Some (String.length a).
Proof.
  induction a as [|c' a IH]; simpl.
  - intros _. by rewrite decide_True.
  - destruct (decide (c' = c)); [done|].
    destruct (indexOf c a); [done|]. intros _. by rewrite IH.
Qed.

(** A string splits around the first occurrence of a character. *)
Lemma indexOf_split (c : ascii) (s : string) (i : nat) :
  indexOf c s = Some i →
  s = slice_to i s +:+ String c (substr (i + 1) s) ∧ indexOf c (slice_to i s) = None.
Proof.
  revert i. induction s as [|c' s IH]; intros i; simpl; [done|].
  destruct (decide (c' = c)) as [->|Hne].
  - intros [= <-]. simpl. by destruct s.
  - destruct (indexOf c s) as [j|] eqn:Hj; [|done]. intros [= <-]. simpl.
    destruct (IH j eq_refl) as [Hs Hn]. rewrite decide_False by done.
    rewrite Hn. split; [|done].
    change (String c' s = String c' (slice_to j s +:+ String c (substr (j + 1) s))).
    by rewrite <-Hs.
Qed.

Lemma startsWith_split (s : string) :
  startsWith "p:" s = true → s = "p:" +:+ substr 2 s.
Proof.
  destruct s as [|a [|b s]]; simpl; try done.
  - by rewrite andb_false_r.
  - repeat case_bool_decide; simpl; try done. by subst.
Qed.

Lemma startsWith_app (s : string) : startsWith "p:" ("p:" +:+ s) = true.
Proof. done. Qed.

Lemma substr_after (c : ascii) (a b : string) :
  substr (String.length a + 1) (a +:+ String c b) = b.
Proof. induction a as [|c' a IH]; simpl; [done|apply IH]. Qed.

Section facts.
Context {Rule V : Type} `{EqDecision Rule}.
Variables Moderation Default : @profile_data Rule.

Implicit Types (m : @SettingsManager Rule V) (d : @profile_data Rule).
Implicit Types (acc : @loading Rule V).

Local Abbreviation loadProfiles := (loadProfiles Moderation Default).
Local Abbreviation _onProviderChange := (_onProviderChange Moderation Default).

(** *** Provider notifications *)


(** *** Creating a profile *)

Global Instance number_key_inj : Inj (=) (=) number_key.
Proof.
  intros i j Hij. unfold number_key, to_key in Hij.
  apply (inj pretty) in Hij. lia.
Qed.

(** Counters whose property names are all taken are no more numerous
    than the properties. *)
Lemma used_bound (ids : gmap string (option addr)) (i : nat) :
  (∀ j, j < i → is_Some (by_key ids (number_key j))) → i ≤ size ids.
Proof.
  intros Hused.
  set (X := list_to_set (number_key <$> seq 0 i) : gset string).
  assert (size X = i) as HX.
  { unfold X. rewrite size_list_to_set.
    - by rewrite length_fmap, length_seq.
    - apply NoDup_fmap_2; [apply _|apply NoDup_seq]. }
  assert (X ⊆ dom ids) as Hsub.
  { intros k Hk. apply elem_of_list_to_set, list_elem_of_fmap in Hk as [j [-> Hj]].
    apply elem_of_seq in Hj. apply elem_of_dom.
    destruct (Hused j) as [a Ha]; [lia|].
    unfold by_key in Ha. by destruct (ids !! number_key j). }
  apply subseteq_size in Hsub. rewrite size_dom in Hsub. lia.
Qed.

Lemma first_free_spec (ids : gmap string (option addr)) (fuel i : nat) :
  (∀ j, j < i → is_Some (by_key ids (number_key j))) →
  size ids < i + fuel →
  by_key ids (number_key (first_free ids fuel i)) = None
  ∧ ∀ j, j < first_free ids fuel i → is_Some (by_key ids (number_key j)).
Proof.
  revert i. induction fuel as [|fuel IH]; intros i Hused Hsize; simpl.
  - apply used_bound in Hused. lia.
  - destruct (by_key ids (number_key i)) as [a|] eqn:Hi; [|done].
    apply IH; [|lia]. intros j Hj.
    destruct (decide (j = i)) as [->|]; [by rewrite Hi|apply Hused; lia].
Qed.

Lemma fresh_id_lowest m :
  by_key (__profile_ids m) (number_key (fresh_id m)) = None
  ∧ ∀ j, j < fresh_id m → is_Some (by_key (__profile_ids m) (number_key j)).
Proof. apply first_free_spec; [lia|lia]. Qed.


(** C9: the created profile goes to the front of the profile list, and
    the call stores the list and runs [selectProfiles] on every context
    before it emits [profile-created]. *)
Theorem createProfile_first_and_saved (options : option profile_options) m :
  let p := (createProfile options m).1 in
  let m' := (createProfile options m).2 in
  __profiles m' = p :: __profiles m
  ∧ __profiles m' !! 0 = Some p
  ∧ p = length (heap m)
  ∧ mirror (provider m') !! "profiles"
      = Some (Profiles (omap (λ a, data <$> heap m' !! a) (p :: __profiles m)))
  ∧ __contexts m' = __contexts m
  ∧ ∃ saved, log m' = log m ++ [ProviderSet "profiles" saved]
                        ++ (SelectProfiles <$> __contexts m)
                        ++ [Emit (ProfileCreated (Some p))].
Proof.
  intros p m'. split_and!; try done.
  - simpl. by rewrite lookup_insert_eq.
  - eexists. simpl. by rewrite <-!app_assoc.
Qed.

(** *** Deleting a profile *)

Local Arguments startsWith : simpl never.

Lemma index_of_None {A} `{EqDecision A} (x : A) (l : list A) :
  index_of x l = None → x ∉ l.
Proof.
  induction l as [|y l IH]; simpl; [intros _; apply not_elem_of_nil|].
  destruct (decide (y = x)); [done|].
  destruct (index_of x l); [done|]. intros _.
  apply not_elem_of_cons. split; [done|by apply IH].
Qed.

Lemma index_of_Some {A} `{EqDecision A} (x : A) (l : list A) (i : nat) :
  index_of x l = Some i →
  ∃ l1 l2, l = l1 ++ (x :: l2) ∧ (x ∉ l1) ∧ length l1 = i ∧ remove_at i l = l1 ++ l2.
Proof.
  revert i. induction l as [|y l IH]; intros i; simpl; [done|].
  destruct (decide (y = x)) as [->|Hne].
  - intros [= <-]. exists [], l. split_and!; try done. apply not_elem_of_nil.
  - destruct (index_of x l) as [j|]; [|done]. intros [= <-].
    destruct (IH j eq_refl) as (l1 & l2 & -> & Hnin & Hlen & Hrem).
    exists (y :: l1), l2. split_and!; simpl; try done.
    + apply not_elem_of_cons. by split.
    + by rewrite Hlen.
    + unfold remove_at in *. simpl. by rewrite Hrem.
Qed.

Lemma index_of_NoDup {A} `{EqDecision A} (l1 l2 : list A) (x : A) :
  x ∉ l1 → index_of x (l1 ++ (x :: l2)) = Some (length l1).
Proof.
  induction l1 as [|y l1 IH]; simpl; intros Hnin.
  - by rewrite decide_True.
  - apply not_elem_of_cons in Hnin as [Hne Hnin].
    rewrite decide_False by done. by rewrite IH.
Qed.


(** A call that resolves to no live profile returns at once. *)
Lemma deleteProfile_unknown (r : profile_ref) m :
  lookup_profile m (__profile_ids m) (ref_key m r) = None →
  deleteProfile r m = Returned m.
Proof. intros Hlook. unfold deleteProfile. by rewrite Hlook. Qed.

(** The profile object with id [0], passed itself as the argument, is
    not unwrapped ([id.id] is falsy) and is looked up under
    ["[object Object]"]. *)
Lemma ref_key_default_object m (a : addr) (inst : SettingsProfile) :
  heap m !! a = Some inst → profile_id inst = IdNum 0 →
  ref_key m (ByObject a) = "[object Object]".
Proof. intros Hh Hid. simpl. by rewrite Hh, Hid. Qed.

(** *** Backup *)

Lemma snapshot_lookup (l : list (string * @stored Rule V))
    (acc : gmap string stored) (k : string) :
  NoDup l.*1 →
  foldl (λ out kv, <[kv.1 := kv.2]> out) acc l !! k
  = from_option Some (acc !! k) ((list_to_map l : gmap string stored) !! k).
Proof.
  revert acc. induction l as [|[k0 v0] l IH]; intros acc Hnd; simpl.
  - by rewrite lookup_empty.
  - apply NoDup_cons in Hnd as [Hk0 Hnd]. rewrite IH by done.
    destruct (decide (k0 = k)) as [->|Hne].
    + rewrite !lookup_insert_eq. simpl.
      by rewrite (not_elem_of_list_to_map_1 _ _ Hk0).
    + by rewrite !lookup_insert_ne by done.
Qed.


(** *** The update timer *)

Lemma successes_count (data : list bool) :
  successes data = length (filter (λ b, b = true) data).
Proof.
  unfold successes.
  assert (∀ n, foldl (λ success thing, if thing : bool then S success else success) n data
               = n + length (filter (λ b, b = true) data)) as Hgen; [|by rewrite Hgen].
  induction data as [|[] data IH]; intros n; cbn [foldl]; [simpl; lia|..].
  - rewrite IH, filter_cons_True by done. simpl. lia.
  - rewrite IH, filter_cons_False by done. done.
Qed.

Lemma clearTimeout_own (h d : nat) : clearTimeout h [(h, d)] = [].
Proof. unfold clearTimeout. by rewrite filter_cons_False by (simpl; auto). Qed.

Lemma scheduleUpdates_single m :
  timers_ok m →
  pending (scheduleUpdates m) = [(next_handle m, 5000)]
  ∧ _update_timer (scheduleUpdates m) = Some (next_handle m).
Proof.
  intros [Hn [Hp|(h & Ht & Hh & Hp)]]; unfold scheduleUpdates; simpl; rewrite Hp.
  - split; [|done]. destruct (_update_timer m) as [h|]; [|done].
    by destruct (bool_decide (h = 0)).
  - rewrite Ht, bool_decide_eq_false_2 by done. by rewrite clearTimeout_own.
Qed.

Lemma expire_clears m (h : nat) :
  timers_ok m → h ∈ (pending m).*1 →
  pending (expire h m) = []
  ∧ log (expire h m) = log m ++ (CheckUpdate <$> update_targets m).
Proof.
  intros [Hn [Hp|(h' & Ht & Hh & Hp)]] Hin; rewrite Hp in Hin.
  - by apply not_elem_of_nil in Hin.
  - apply list_elem_of_singleton in Hin. simpl in Hin. subst h'.
    unfold expire. rewrite bool_decide_eq_true_2 by (rewrite Hp; apply list_elem_of_here).
    simpl. rewrite Hp. by rewrite clearTimeout_own.
Qed.

Lemma timer_run_ok m0 m : timers_ok m0 → timer_run m0 m → timers_ok m.
Proof.
  intros H0. induction 1 as [|m Hrun IH|h m Hrun IH Hin|m m' Hrun IH Ht Hp Hn].
  - done.
  - destruct (scheduleUpdates_single m IH) as [Hp Ht]. split.
    + destruct IH. simpl. lia.
    + right. exists (next_handle m). destruct IH. split_and!; [done|lia|done].
  - destruct (expire_clears m h IH Hin) as [Hp _]. split; [|by left].
    destruct IH as [Hn _]. unfold expire. by destruct (bool_decide _).
  - destruct IH as [Hn' Hcase]. split; [by rewrite Hn|].
    by rewrite Hp, Ht.
Qed.

Lemma update_targets_spec m (a : addr) :
  a ∈ update_targets m
  ↔ a ∈ __profiles m
    ∧ ∃ inst, heap m !! a = Some inst ∧ truthy_str (profile_url inst) = true.
Proof.
  unfold update_targets, has_url. rewrite list_elem_of_filter. split.
  - intros [Hurl Hin]. split; [done|].
    destruct (heap m !! a) as [inst|]; [by exists inst|done].
  - intros [Hin (inst & -> & Hurl)]. done.
Qed.


(** *** Loading the profile list *)

Lemma patch_context_id d : pd_id (patch_context Moderation d) = pd_id d.
Proof. unfold patch_context. by destruct (pd_context d). Qed.

Lemma patch_context_current d :
  (∀ b, pd_context d ≠ Legacy b) → patch_context Moderation d = d.
Proof. unfold patch_context. intros Hd. destruct (pd_context d) eqn:E; try done. by destruct (Hd moderator). Qed.

Lemma lookup_profile_empty m (key : string) : lookup_profile m ∅ key = None.
Proof. unfold lookup_profile, by_key. by rewrite lookup_empty. Qed.

(** The iteration for an id that names no live profile. *)
Lemma load_step_created (ids : gmap string (option addr)) (old : list addr)
    acc d :
  lookup_profile (ld_manager acc) ids (to_key (pd_id d)) = None →
  load_step Moderation ids old acc d
  = {| ld_manager :=
         place (pd_id d) (length (heap (ld_manager acc)))
           (set_heap (λ h, h ++ [new_SettingsProfile (patch_context Moderation d)])
              (ld_manager acc));
       old_ids := set_delete (pd_id d) (old_ids acc);
       new_ids := set_add (pd_id d) (new_ids acc);
       changed_ids := changed_ids acc;
       reordered := true; changed := true |}.
Proof.
  intros Hnone. unfold load_step. rewrite Hnone. simpl.
  by rewrite orb_true_r.
Qed.

(** C10: without a stored ["profiles"] key the list read is
    [[Moderation; Default]], and the manager as constructed ends with two
    new instances, Moderation's first and Default's second. *)
Theorem loadProfiles_builtin_fallback (contexts : list nat) (pr : @Provider Rule V)
    (suppress_events : bool) :
  mirror pr !! "profiles" = None →
  raw_profiles Moderation Default pr = Some [Moderation; Default]
  ∧ ∃ m', loadProfiles suppress_events (fresh contexts pr) = Returned m'
      ∧ __profiles m' = [0; 1]
      ∧ heap m' = [new_SettingsProfile (patch_context Moderation Moderation);
                   new_SettingsProfile (patch_context Moderation Default)]
      ∧ (pd_context Moderation ≠ Legacy false →
         patch_context Moderation Moderation = Moderation)
      ∧ ((∀ b, pd_context Default ≠ Legacy b) →
         patch_context Moderation Default = Default).
Proof.
  intros Hnone.
  assert (raw_profiles Moderation Default pr = Some [Moderation; Default]) as Hraw.
  { unfold raw_profiles. by rewrite Hnone. }
  split; [done|].
  unfold loadProfiles, Manager.loadProfiles. simpl provider. rewrite Hraw.
  cbn [foldl]. rewrite !load_step_created by apply lookup_profile_empty.
  assert (pd_context Moderation ≠ Legacy false →
          patch_context Moderation Moderation = Moderation) as Hm.
  { intros Hm. unfold patch_context.
    destruct (pd_context Moderation) as [| | |[]] eqn:E; try done.
    destruct Moderation. simpl in E. by rewrite E. }
  destruct suppress_events; simpl; eexists; (split; [reflexivity|]);
    (split_and!; [done|done|exact Hm|apply patch_context_current]).
Qed.

Lemma elem_of_set_delete (x y : id_t) (l : list id_t) :
  x ∈ set_delete y l ↔ x ≠ y ∧ x ∈ l.
Proof. unfold set_delete. by rewrite list_elem_of_filter. Qed.

Lemma elem_of_set_add (x y : id_t) (l : list id_t) :
  x ∈ set_add y l → x = y ∨ x ∈ l.
Proof.
  unfold set_add. destruct (decide (y ∈ l)); [intros; by right|].
  intros [?|Hx%list_elem_of_singleton]%elem_of_app; [by right|by left].
Qed.

Lemma elem_of_new_set (x : id_t) (l : list id_t) : x ∈ new_set l → x ∈ l.
Proof.
  unfold new_set.
  assert (∀ s, x ∈ foldl (λ s x, set_add x s) s l → x ∈ s ∨ x ∈ l) as Hgen.
  { induction l as [|y l IH]; intros s; simpl; [by left|].
    intros [[->|?]%elem_of_set_add|?]%IH.
    - right. apply list_elem_of_here.
    - by left.
    - right. by apply list_elem_of_further. }
  intros [[]%not_elem_of_nil|?]%Hgen. done.
Qed.

(** The iteration for an entry that matches the instance of its slot. *)
Lemma load_step_reused (ids : gmap string (option addr)) (old : list addr)
    acc d (a : addr) (inst : SettingsProfile) :
  lookup_profile (ld_manager acc) ids (to_key (pd_id d)) = Some (a, inst) →
  index_of a old = Some (length (__profiles (ld_manager acc))) →
  deep_equals (data inst) (patch_context Moderation d) = true →
  load_step Moderation ids old acc d
  = {| ld_manager := place (pd_id d) a (ld_manager acc);
       old_ids := set_delete (pd_id d) (old_ids acc);
       new_ids := new_ids acc;
       changed_ids := changed_ids acc;
       reordered := reordered acc; changed := changed acc |}.
Proof.
  intros Hlook Hidx Heq. unfold load_step. rewrite Hlook. simpl.
  rewrite Hidx, Heq, bool_decide_eq_true_2 by done. simpl.
  by rewrite !orb_false_r.
Qed.

Lemma load_loop_reusing m :
  indexed m →
  ∀ rest_a rest_d,
    Forall2 (λ a d, ∃ inst, heap m !! a = Some inst
                     ∧ deep_equals (data inst) (patch_context Moderation d) = true)
      rest_a rest_d →
    ∀ seen acc,
      __profiles m = seen ++ rest_a →
      reusing m seen rest_a acc →
      reusing m (__profiles m) []
        (foldl (load_step Moderation (__profile_ids m) (__profiles m)) acc rest_d).
Proof.
  intros [Hnd Hidx]. induction 1 as [|a d rest_a rest_d (inst & Hinst & Heq) _ IH];
    intros seen acc Hsplit Hinv; simpl.
  - by rewrite Hsplit, app_nil_r.
  - destruct Hinv as (Hp & Hh & Hl & Hnew & Hch & Hre & Hchd & Hold & Hdone).
    apply bool_decide_eq_true_1 in Heq as Hdata.
    assert (profile_id inst = pd_id d) as Hid.
    { unfold profile_id. by rewrite Hdata, patch_context_id. }
    assert (a ∈ __profiles m) as Hain.
    { rewrite Hsplit. apply elem_of_app. right. apply list_elem_of_here. }
    destruct (Hidx a Hain) as (inst' & Hinst' & Hkey).
    assert (inst' = inst) as -> by congruence. rewrite Hid in Hkey.
    assert (a ∉ seen) as Hnin.
    { rewrite Hsplit in Hnd. apply NoDup_app in Hnd as (_ & Hdis & _).
      intros Hin. apply (Hdis a Hin), list_elem_of_here. }
    rewrite (load_step_reused _ _ acc d a inst).
    + apply (IH (seen ++ [a])); [by rewrite Hsplit, <-app_assoc|].
      split_and!; simpl; try done.
      * by rewrite Hp.
      * intros x [Hne Hx]%elem_of_set_delete.
        destruct (Hold x Hx) as (b & ib & Hb & Hib & Hidb).
        exists b, ib. split_and!; [|done..].
        apply elem_of_cons in Hb as [->|?]; [|done].
        congruence.
      * intros b [Hb|Hb]%elem_of_app.
        -- destruct (Hdone b Hb) as (ib & Hib & Hkeyb).
           exists ib. split; [done|]. unfold by_key in *.
           destruct (decide (to_key (pd_id d) = to_key (profile_id ib))) as [Hk|Hk].
           ++ rewrite Hk, lookup_insert_eq. simpl.
              assert (b ∈ __profiles m) as Hbm.
              { rewrite Hsplit. apply elem_of_app. by left. }
              destruct (Hidx b Hbm) as (ib' & Hib' & Hkeyb').
              assert (ib' = ib) as -> by congruence.
              unfold by_key in Hkeyb'. rewrite <-Hk, Hkey in Hkeyb'. done.
           ++ by rewrite lookup_insert_ne.
        -- apply list_elem_of_singleton in Hb as ->.
           exists inst. split; [done|]. unfold by_key.
           by rewrite Hid, lookup_insert_eq.
    + unfold lookup_profile. rewrite Hkey. simpl. by rewrite Hh, Hinst.
    + rewrite Hp, Hsplit. by apply index_of_NoDup.
    + done.
Qed.

(** Entries that are already in the current format are compared as they
    are stored. *)
Lemma in_sync_current_format m (raw : list profile_data) :
  Forall (λ d, ∀ b, pd_context d ≠ Legacy b) raw →
  in_sync m raw → in_sync_patched Moderation m raw.
Proof.
  intros Hcur [Hraw Hsync]. split; [done|]. clear Hraw.
  revert Hcur Hsync. generalize (__profiles m).
  induction raw as [|d raw IH]; intros l Hcur Hsync;
    inversion Hsync as [|a d' l' raw' (inst & Hinst & Heq) Hrest]; subst;
    constructor.
  - apply Forall_cons in Hcur as [Hd _]. exists inst.
    by rewrite patch_context_current.
  - apply Forall_cons in Hcur as [_ Hcur]. by apply IH.
Qed.

(** C2 (as amended): when [__profile_ids] indexes the list and every
    instance's data is deep-equal to the persisted entry of its slot as
    [loadProfiles] compares it, a reload emits nothing, runs no
    [selectProfiles], and keeps the same instances in the same slots. *)
Theorem loadProfiles_in_sync_is_quiet m (raw : list profile_data) :
  indexed m → in_sync_patched Moderation m raw →
  quiet_reload Moderation Default m
  ∧ indexed (state_of (loadProfiles false m)).
Proof.
  intros Hidx [Hraw Hsync].
  assert (reusing m [] (__profiles m) (load_start m)) as Hstart.
  { split_and!; try done.
    - intros x (a & Ha & Hx)%elem_of_new_set%list_elem_of_omap.
      destruct (heap m !! a) as [inst|] eqn:Hinst; [|done].
      exists a, inst. split_and!; [done..|]. simpl in Hx. congruence.
    - by intros a ?%not_elem_of_nil. }
  pose proof (load_loop_reusing m Hidx _ _ Hsync [] _ eq_refl Hstart) as Hend.
  unfold quiet_reload, loadProfiles, Manager.loadProfiles, raw_profiles.
  rewrite Hraw.
  destruct Hend as (Hp & Hh & Hl & _ & _ & _ & Hchd & Hold & Hdone).
  set (acc := foldl _ _ raw) in *.
  assert (old_ids acc = []) as Hempty.
  { destruct (old_ids acc) as [|x l]; [done|].
    destruct (Hold x (list_elem_of_here _ _)) as (a & _ & []%not_elem_of_nil & _). }
  rewrite Hchd, Hempty. simpl. split.
  - by exists (ld_manager acc).
  - split; [by rewrite Hp; apply Hidx|].
    intros a Ha. rewrite Hp in Ha. rewrite Hh. by apply Hdone.
Qed.

End facts.

(** *** The theorems at concrete managers *)

Local Abbreviation M := sample_Moderation.
Local Abbreviation D := sample_Default.

Lemma three_profiles_indexed : indexed three_profiles.
Proof.
  split.
  - apply (bool_decide_unpack _). by vm_compute.
  - intros a Ha. apply list_elem_of_In in Ha. simpl in Ha.
    destruct Ha as [<-|[<-|[<-|[]]]]; eexists; split; reflexivity.
Qed.

Lemma three_profiles_in_sync : in_sync_patched M three_profiles (profile_blobs three_profiles).
Proof.
  split; [reflexivity|].
  set (l := __profiles three_profiles). vm_compute in l. subst l.
  set (raw := profile_blobs three_profiles). vm_compute in raw. subst raw.
  repeat (constructor; [eexists; split; reflexivity|]). constructor.
Qed.

Lemma loadProfiles_in_sync_is_quiet_witness :
  indexed three_profiles
  ∧ in_sync_patched M three_profiles (profile_blobs three_profiles)
  ∧ quiet_reload M D three_profiles.
Proof.
  split; [apply three_profiles_indexed|]. split; [apply three_profiles_in_sync|].
  apply (loadProfiles_in_sync_is_quiet M D three_profiles
           (profile_blobs three_profiles) three_profiles_indexed three_profiles_in_sync).
Defined.

(** C2, as stated, fails in two ways.  When the persisted context is in
    the earlier object format the reload patches the entry before comparing,
    replaces the instance and emits [profile-changed].  When two listed
    instances share an id, [__profile_ids] names only one of them: the
    reload puts that one in both slots and emits [profiles-reordered]. *)
Lemma in_sync_reload_not_quiet :
  (in_sync legacy_profile (profile_blobs legacy_profile)
   ∧ indexed legacy_profile
   ∧ ¬ quiet_reload M D legacy_profile)
  ∧ (in_sync twin_profiles [twin_blob; twin_blob]
     ∧ ¬ quiet_reload M D twin_profiles).
Proof.
  split; split_and!.
  - split; [reflexivity|].
    set (l := __profiles legacy_profile). vm_compute in l. subst l.
    set (raw := profile_blobs legacy_profile). vm_compute in raw. subst raw.
    constructor; [eexists; split; reflexivity|constructor].
  - split; [apply (bool_decide_unpack _); by vm_compute|].
    intros a Ha. apply list_elem_of_In in Ha. simpl in Ha.
    destruct Ha as [<-|[]]. eexists. split; reflexivity.
  - intros (m' & Hload & Hlog & _). vm_compute in Hload.
    injection Hload as <-. vm_compute in Hlog. discriminate.
  - split; [reflexivity|].
    set (l := __profiles twin_profiles). vm_compute in l. subst l.
    repeat (constructor; [eexists; split; reflexivity|]). constructor.
  - intros (m' & Hload & Hlog & _). vm_compute in Hload.
    injection Hload as <-. vm_compute in Hlog. discriminate.
Qed.

Example reload_of_twins :
  __profiles twin_profiles = [0; 1]
  ∧ __profiles (state_of (loadProfiles M D false twin_profiles)) = [1; 1]
  ∧ log (state_of (loadProfiles M D false twin_profiles))
    = [SelectProfiles 0; Emit ProfilesReordered].
Proof. done. Qed.

Example reload_of_legacy_context_log :
  log (state_of (loadProfiles M D false legacy_profile))
  = log legacy_profile ++ [SelectProfiles 0; Emit (ProfileChanged (Some 1))].
Proof. reflexivity. Qed.




Example deleteProfile_moderation :
  __profiles three_profiles = [2; 0; 1] ∧ __profiles two_profiles = [2; 1]
  ∧ by_key (__profile_ids two_profiles) "1" = None.
Proof. done. Qed.

(** The Default profile's own object as the argument: the call returns,
    it does not raise, and nothing changes. *)
Example deleteProfile_default_object :
  deleteProfile (ByObject 1) started = Returned started.
Proof. reflexivity. Qed.

Example createProfile_ids_0_1_2 :
  profile_id <$> heap three_profiles = [IdNum 1; IdNum 0; IdNum 2]
  ∧ fresh_id three_profiles = 3.
Proof. done. Qed.

Example createProfile_ids_0_2 :
  __profiles two_profiles = [2; 1] ∧ fresh_id two_profiles = 1
  ∧ profile_id <$> heap (createProfile None two_profiles).2
    = [IdNum 1; IdNum 0; IdNum 2; IdNum 1]
  ∧ pd_name <$> (data <$> heap (createProfile None two_profiles).2 !! 3)
    = Some (Some "Unnamed Profile 1").
Proof. done. Qed.



Lemma loadProfiles_builtin_fallback_witness :
  mirror empty_provider !! "profiles" = None
  ∧ raw_profiles M D empty_provider = Some [M; D].
Proof.
  split; [reflexivity|].
  exact (proj1 (loadProfiles_builtin_fallback M D [0] empty_provider true eq_refl)).
Defined.

End ManagerFacts.


(** ** More on the registry: what [add] adds and what it keeps *)

Module RegistryExtra.
Import Registry RegistryFacts.

Local Set Warnings "-clear-no-such-hyp".

Section facts.
Context {V UI : Type}.
Variable prepare_ui : UI → @prepared UI.

Implicit Types (r : @registry V UI) (e : entry) (d : @definition V).

Local Abbreviation add := (add prepare_ui).
Local Abbreviation add_all := (add_all prepare_ui).


(** X2: [add(key, definition)] writes to no object other than the one it
    is given and replaces no entry other than the one of [key], however it
    ends; an array is only appended to. *)
Theorem add_keeps_definitions key o r :
  (∀ k e, k ≠ key → definitions r !! k = Some e →
          definitions (registry_of (add key o r)) !! k = Some e)
  ∧ (∀ e, definitions r !! key = Some e →
          definitions (registry_of (add key o r)) !! key = Some e
          ∨ definitions (registry_of (add key o r)) !! key = Some (Registered o))
  ∧ (∀ o', o' ≠ o → objects (registry_of (add key o r)) !! o' = objects r !! o')
  ∧ (∀ a l, arrays r !! a = Some l →
       ∃ l', arrays (registry_of (add key o r)) !! a = Some (l ++ l')).
Proof.
  destruct (add_frame prepare_ui key o r) as (Hkeep & Hkey & Hobj & Hnone & Harr).
  split_and!; [done|done| |done].
  intros o' Hne. destruct (objects r !! o) as [d|] eqn:Ho.
  - rewrite (Hobj d eq_refl). by rewrite list_lookup_insert_ne.
  - by rewrite (Hnone eq_refl).
Qed.


(** X4: a key that the definition requires and that has no entry yet
    gets a placeholder, whose list holds [key] once for each time it is
    named. *)
Theorem add_creates_placeholder key o r d k :
  reachable prepare_ui r → objects r !! o = Some d →
  definitions r !! k = None → k ≠ key →
  k ∈ default [] (requires d) →
  ∃ a, definitions (registry_of (add key o r)) !! k = Some (Placeholder a)
       ∧ required_by_list (registry_of (add key o r)) k
         = Some (replicate (length (filter (λ q, q = k) (default [] (requires d)))) key).
Proof.
  intros Hc%reachable_closed Ho Hk Hne Hin.
  destruct (adopt_frame key o d r) as (Hd2 & _).
  destruct (add_result prepare_ui key o r d Hc Ho) as (r3 & Hr3 & Hc3 & Hob & Har & Hdef).
  destruct (loop_absent key _ _ r3 k (adopt_closed key o d r Hc Ho)
              ltac:(by rewrite Hd2) Hin Hr3) as (a & Ha & Hl).
  exists a.
  assert (definitions (registry_of (add key o r)) !! k = Some (Placeholder a)) as Hk'.
  { destruct Hdef as [(err & r' & Hadd & Hd')|(r' & Hadd & Hd')];
      rewrite Hadd; simpl; rewrite Hd'; [done|]. by rewrite lookup_insert_ne. }
  split; [done|]. unfold required_by_list. rewrite Hk'. simpl. by rewrite Har.
Qed.



End facts.


Lemma add_creates_placeholder_witness :
  let r := (new_object (plain (Some ["a"; "a"])) (@init unit unit)).2 in
  reachable keep r ∧ objects r !! 0 = Some (plain (Some ["a"; "a"]))
  ∧ definitions r !! "a" = None ∧ "a" ≠ "b" ∧ "a" ∈ ["a"; "a"]
  ∧ ∃ a, definitions (registry_of (add keep "b" 0 r)) !! "a" = Some (Placeholder a)
       ∧ required_by_list (registry_of (add keep "b" 0 r)) "a" = Some ["b"; "b"].
Proof.
  assert (reachable keep (new_object (plain (Some ["a"; "a"])) (@init unit unit)).2) as Hr
    by apply reachable_object, reachable_init.
  assert ("a" ∈ ["a"; "a"]) as Hin by apply list_elem_of_here.
  split; [exact Hr|]. split; [reflexivity|]. split; [reflexivity|].
  split; [done|]. split; [exact Hin|].
  exact (add_creates_placeholder keep "b" 0 _ (plain (Some ["a"; "a"])) "a"
           Hr eq_refl eq_refl ltac:(done) Hin).
Defined.

Lemma returned_example :
  reachable_normal keep (registry_of (register keep "b" (plain (Some ["a"])) init)).
Proof.
  apply (normal_add keep "b" 0 (new_object (plain (Some ["a"])) init).2).
  - apply normal_object, normal_init.
  - reflexivity.
Qed.




(** Where an object is stored under a second key the first key loses its
    edges: the requirement of ["c"] on ["a"] is no longer recorded. *)
Lemma shared_object_loses_edges :
  let r0 := registry_of (add keep "a" 0 (new_object (plain None) init).2) in
  let r1 := registry_of (register keep "c" (plain (Some ["a"])) r0) in
  required_by_list r1 "a" = Some ["c"]
  ∧ required_by_list (registry_of (add keep "b" 0 r1)) "a" = Some [].
Proof. split; reflexivity. Qed.

(** Where the UI normalisation raises, an edge is left that comes from a
    key without definition. *)
Lemma raise_leaves_edge :
  let '(u, r0) := new_ui tt (@init unit unit) in
  let '(o, r1) :=
    new_object {| default_value := tt; requires := Some ["b"]; required_by := None;
                  ui := Some u; changed := None |} r0 in
  ∃ r', add refuse "a" o r1 = Abrupt "TypeError" r'
        ∧ required_by_list r' "b" = Some ["a"]
        ∧ definitions r' !! "a" = None.
Proof. eexists. split_and!; reflexivity. Qed.

End RegistryExtra.

(** ** Path tokens *)

Module PathTokensFacts.
Import Manager PathTokens.

Section facts.
Context {M : Type}.
Variable no_more : M.
Variable toSnakeCase : string → string.

Implicit Types (t : @token M) (ts : list (@token M)).

Local Abbreviation format_token := (format_token no_more toSnakeCase).
Local Abbreviation format_path_tokens := (format_path_tokens no_more toSnakeCase).

Lemma format_token_Some t : formattable t ↔ is_Some (format_token t).
Proof.
  destruct t as [s|key title more]; simpl; [by split; eauto|].
  destruct (truthy_str key); [by split; eauto|].
  destruct title; split; eauto.
  - intros [?|[? ?]]; done.
  - intros [? ?]. done.
Qed.

Lemma format_token_shape t t' :
  format_token t = Some t' → is_object t' ∧ title_of t' = title_of t.
Proof.
  destruct t as [s|key title more]; simpl.
  - by intros [= <-].
  - destruct (truthy_str key); [by intros [= <-]|].
    destruct title; [by intros [= <-]|done].
Qed.

Lemma format_token_again t t' :
  format_token t = Some t' → format_token t' = Some t'.
Proof.
  destruct t as [s|key title more]; simpl.
  - intros [= <-]. simpl. by destruct (negb _).
  - destruct (truthy_str key) eqn:Hk; [intros [= <-]; simpl; by rewrite Hk|].
    destruct title as [x|]; [|done]. intros [= <-]. simpl. by destruct (negb _).
Qed.

(** X8: [format_path_tokens] returns exactly when every element is a
    string, an object with a truthy key, or an object with a title; the
    array it returns has the same length, holds objects only, and every
    element has the title it had. *)
Theorem format_path_tokens_returns ts :
  (Forall formattable ts ↔ ∃ l, format_path_tokens ts = Returned l)
  ∧ ∀ l, format_path_tokens ts = Returned l →
      length l = length ts
      ∧ Forall is_object l
      ∧ title_of <$> l = title_of <$> ts.
Proof.
  induction ts as [|t ts [IHiff IHshape]]; simpl.
  - split; [split; eauto|]. intros l [= <-]. by split_and!.
  - split.
    + split.
      * intros [Ht [l Hl]%IHiff]%Forall_cons.
        apply format_token_Some in Ht as [t' Ht']. rewrite Ht', Hl. eauto.
      * intros [l Hl]. destruct (format_token t) as [t'|] eqn:Ht; [|done].
        destruct (format_path_tokens ts) as [l'|] eqn:Hts; [|done].
        constructor; [apply format_token_Some; eauto|apply IHiff; eauto].
    + intros l Hl. destruct (format_token t) as [t'|] eqn:Ht; [|done].
      destruct (format_path_tokens ts) as [l'|] eqn:Hts; [|done].
      injection Hl as <-. destruct (IHshape l' eq_refl) as (Hlen & Hobj & Htitle).
      destruct (format_token_shape t t' Ht) as [Hobj' Htitle'].
      split_and!; [simpl; by rewrite Hlen|by constructor|].
      rewrite !fmap_cons. by rewrite Htitle, Htitle'.
Qed.

(** X9: formatting is idempotent: an array that [format_path_tokens] has
    returned is returned unchanged by a second call. *)
Theorem format_path_tokens_idempotent ts l :
  format_path_tokens ts = Returned l → format_path_tokens l = Returned l.
Proof.
  revert l. induction ts as [|t ts IH]; intros l; simpl.
  - by intros [= <-].
  - destruct (format_token t) as [t'|] eqn:Ht; [|done].
    destruct (format_path_tokens ts) as [l'|] eqn:Hts; [|done].
    intros [= <-]. simpl. by rewrite (format_token_again t t' Ht), (IH l' eq_refl).
Qed.

(** X10: when [format_path_tokens] raises, it is at the first object that
    has neither a truthy key nor a title; the elements before it are already
    rewritten and that object and the elements after it are as they were. *)
Theorem format_path_tokens_raises ts err l :
  format_path_tokens ts = Threw err l →
  ∃ before before' key more after,
    ts = before ++ Obj key None more :: after
    ∧ truthy_str key = false
    ∧ format_path_tokens before = Returned before'
    ∧ l = before' ++ Obj key None more :: after.
Proof.
  revert l. induction ts as [|t ts IH]; intros l; simpl; [done|].
  destruct (format_token t) as [t'|] eqn:Ht.
  - destruct (format_path_tokens ts) as [l'|err' l'] eqn:Hts; [done|].
    intros [= <- <-].
    destruct (IH l' eq_refl) as (b & b' & key & more & after & -> & Hk & Hb & ->).
    exists (t :: b), (t' :: b'), key, more, after. simpl. by rewrite Ht, Hb.
  - intros [= <- <-]. destruct t as [s|key [x|] more]; simpl in Ht; try done.
    + by destruct (truthy_str key).
    + destruct (truthy_str key) eqn:Hk; [done|].
      by exists [], [], key, more, ts.
Qed.

End facts.

Lemma format_path_tokens_idempotent_witness :
  format_path_tokens tt id [Text "Chat"; Obj None (Some "Appearance") tt]
  = Returned [Obj (Some "Chat") (Some "Chat") tt; Obj (Some "Appearance") (Some "Appearance") tt]
  ∧ format_path_tokens tt id
      [Obj (Some "Chat") (Some "Chat") tt; Obj (Some "Appearance") (Some "Appearance") tt]
    = Returned [Obj (Some "Chat") (Some "Chat") tt; Obj (Some "Appearance") (Some "Appearance") tt].
Proof.
  split; [reflexivity|].
  exact (format_path_tokens_idempotent tt id
           [Text "Chat"; Obj None (Some "Appearance") tt] _ eq_refl).
Defined.

Lemma format_path_tokens_raises_witness :
  format_path_tokens tt id [Text "Chat"; Obj (Some "") None tt; Text "Tail"]
  = Threw "TypeError" [Obj (Some "Chat") (Some "Chat") tt; Obj (Some "") None tt; Text "Tail"]
  ∧ ∃ before before' key more after,
      [Text "Chat"; Obj (Some "") None tt; Text "Tail"]
      = before ++ Obj key None more :: after
      ∧ truthy_str key = false
      ∧ format_path_tokens tt id before = Returned before'.
Proof.
  split; [reflexivity|].
  destruct (format_path_tokens_raises tt id
              [Text "Chat"; Obj (Some "") None tt; Text "Tail"] _ _ eq_refl)
    as (b & b' & key & more & after & H1 & H2 & H3 & _).
  by exists b, b', key, more, after.
Defined.

End PathTokensFacts.

(** ** The add-on card *)

Module AddonFacts.
Import Manager Addon.

Lemma split_lines_nonempty (s : string) : split_lines s ≠ [].
Proof.
  induction s as [|c s IH]; simpl; [done|].
  destruct (decide (c = newline)); [done|]. by destruct (split_lines s).
Qed.

Lemma string_app_nil (s : string) : s +:+ "" = s.
Proof.
  induction s as [|c s IH]; [done|].
  change (String c (s +:+ "") = String c s). by rewrite IH.
Qed.

Lemma join_lines_cons (line : string) (rest : list string) :
  rest ≠ [] → join_lines (line :: rest) = line +:+ String newline (join_lines rest).
Proof. by destruct rest. Qed.

Lemma join_lines_push (c : ascii) (line : string) (rest : list string) :
  join_lines (String c line :: rest) = String c (join_lines (line :: rest)).
Proof. by destruct rest. Qed.

Lemma split_lines_spec (s : string) :
  join_lines (split_lines s) = s ∧ Forall one_line (split_lines s).
Proof.
  induction s as [|c s [IHj IHo]].
  - split; [done|]. by constructor.
  - pose proof (split_lines_nonempty s) as Hs. simpl.
    destruct (decide (c = newline)) as [->|Hne].
    + split; [|by constructor].
      by rewrite join_lines_cons, IHj.
    + destruct (split_lines s) as [|l ls]; [done|].
      apply Forall_cons in IHo as [Hl Hls]. split.
      * by rewrite join_lines_push, IHj.
      * constructor; [|done]. unfold one_line in *. simpl.
        rewrite decide_False by done. by rewrite Hl.
Qed.

(** X11: splitting a description at its line feeds and joining the pieces
    with line feeds gives the description back; there is always a first
    piece, and no piece holds a line feed. *)
Theorem split_lines_join (s : string) :
  join_lines (split_lines s) = s
  ∧ Forall one_line (split_lines s)
  ∧ split_lines s ≠ [].
Proof.
  destruct (split_lines_spec s) as [Hjoin Hone].
  split_and!; [done|done|].
  pose proof (split_lines_nonempty s) as Hne. by destruct (split_lines s).
Qed.

Lemma split_lines_head (s : string) :
  ∃ rest, s = default "" (head (split_lines s)) +:+ rest
          ∧ (length (split_lines s) = 1 → rest = "").
Proof.
  induction s as [|c s (rest & Hs & Hone)]; simpl.
  - by exists "".
  - destruct (decide (c = newline)) as [->|Hne].
    + exists (String newline s). split; [done|].
      pose proof (split_lines_nonempty s). simpl. destruct (split_lines s); [done|].
      simpl. lia.
    + destruct (split_lines s) as [|l ls] eqn:E; [by destruct (split_lines_nonempty s)|].
      simpl in *. exists rest. split; [by rewrite Hs at 1|done].
Qed.

Section card.
Variable t : string → string → string.

(** X12: the card as [data()] makes it shows, while collapsed, the first
    line of the description, which holds no line feed and is a prefix of the
    description; expanded by [toggle] it shows the whole description; and
    when the description has a single line ([multi_line] is false, so no
    "Show More" link) the collapsed card already shows all of it. *)
Theorem card_shows_first_line (a : addon) :
  let c := data t a in
  one_line (show_description c)
  ∧ (∃ rest, described t a = show_description c +:+ rest)
  ∧ show_description (toggle c) = described t a
  ∧ show_description (toggle (toggle c)) = show_description c
  ∧ (multi_line c = false → show_description c = described t a).
Proof.
  intros c. unfold show_description. simpl.
  destruct (split_lines_spec (described t a)) as [_ Hone].
  destruct (split_lines_head (described t a)) as (rest & Hrest & Hsingle).
  pose proof (split_lines_nonempty (described t a)) as Hne.
  split_and!.
  - destruct (split_lines (described t a)) as [|l ls]; [done|].
    by apply Forall_cons in Hone as [? _].
  - by exists rest.
  - done.
  - done.
  - intros Hm. apply bool_decide_eq_false_1 in Hm.
    destruct (split_lines (described t a)) as [|l [|l' ls]] eqn:E; try done.
    + rewrite Hsingle in Hrest by done. rewrite Hrest. simpl.
      by rewrite string_app_nil.
    + simpl in Hm. lia.
Qed.

(** X13: [multi_line] is set exactly when the description holds a line
    feed, and [updateDescription] recomputes the text fields as [data()]
    does while leaving [expanded] as it is. *)
Theorem multi_line_iff_line_feed (a : addon) (c : card) :
  (multi_line (data t a) = true ↔ ¬ one_line (described t a))
  ∧ card_description (updateDescription t a c) = card_description (data t a)
  ∧ multi_line (updateDescription t a c) = multi_line (data t a)
  ∧ first_line (updateDescription t a c) = first_line (data t a)
  ∧ expanded (updateDescription t a c) = expanded c.
Proof.
  split; [|done]. simpl. generalize (described t a). clear. intros s.
  assert (length (split_lines s) = 1 ↔ one_line s) as Hlen.
  { unfold one_line. induction s as [|c s IH]; simpl; [done|].
    pose proof (split_lines_nonempty s) as Hne.
    destruct (decide (c = newline)) as [->|Hc].
    - destruct (split_lines s); [done|]. simpl. split; [lia|done].
    - destruct (split_lines s) as [|l ls]; [done|]. simpl in *.
      destruct (indexOf newline s); simpl; split; try done; [|tauto].
      intros Hl. by apply IH in Hl. }
  pose proof (split_lines_nonempty s) as Hne.
  rewrite bool_decide_eq_true. rewrite <-Hlen.
  destruct (split_lines s); [done|]. simpl. lia.
Qed.

End card.
End AddonFacts.

(** ** Reordering and saving profiles *)

Module ProfilesFacts.
Import Manager ManagerFacts Profiles.

Lemma splice_start_le (len : nat) (start : Z) : splice_start len start ≤ len.
Proof. unfold splice_start. destruct (start <? 0)%Z eqn:E; lia. Qed.

Lemma splice_start_in_range (len : nat) (start : Z) :
  (0 ≤ start ≤ Z.of_nat len)%Z → splice_start len start = Z.to_nat start.
Proof. intros H. unfold splice_start. destruct (start <? 0)%Z eqn:E; lia. Qed.

Lemma splice_out_perm {A} (start : Z) (l : list A) :
  (splice_out start l).1 ++ (splice_out start l).2 ≡ₚ l.
Proof.
  unfold splice_out. simpl. set (s := splice_start (length l) start).
  transitivity (take s l ++ take 1 (drop s l) ++ drop (S s) l).
  - apply Permutation_app_swap_app.
  - replace (S s) with (s + 1) by lia.
    by rewrite <-drop_drop, take_drop, take_drop.
Qed.

Lemma splice_in_perm {A} (start : Z) (items l : list A) :
  splice_in start items l ≡ₚ items ++ l.
Proof.
  unfold splice_in. set (s := splice_start (length l) start).
  transitivity (items ++ take s l ++ drop s l).
  - apply Permutation_app_swap_app.
  - by rewrite take_drop.
Qed.

Section facts.
Context {Rule V : Type} `{EqDecision Rule}.

Implicit Types (m : @SettingsManager Rule V).

(** X14: [moveProfile] only reorders: whatever the id and the index,
    negative or past the end included, the profile list afterwards is a
    permutation of the list before, and the instances are untouched. *)
Theorem moveProfile_permutes (r : profile_ref) (index : Z) m :
  __profiles (moveProfile r index m) ≡ₚ __profiles m
  ∧ heap (moveProfile r index m) = heap m
  ∧ __profile_ids (moveProfile r index m) = __profile_ids m.
Proof.
  unfold moveProfile. destruct (by_key _ _) as [p|]; [|done].
  destruct (bool_decide _); [done|].
  destruct (splice_out _ _) as [removed rest] eqn:E. simpl.
  split; [|done]. rewrite splice_in_perm.
  pose proof (splice_out_perm (position p (__profiles m)) (__profiles m)) as Hp.
  by rewrite E in Hp.
Qed.

(** X15: moving a listed profile to an index inside the list puts it at
    that index and keeps the other profiles in their order; the list is then
    stored, every context reselects, and [profiles-reordered] is emitted. *)
Theorem moveProfile_lands_at_index (r : profile_ref) (index : Z) m (p : addr) (i : nat) :
  by_key (__profile_ids m) (ref_key m r) = Some p →
  index_of p (__profiles m) = Some i →
  (0 ≤ index < Z.of_nat (length (__profiles m)))%Z → index ≠ Z.of_nat i →
  let m' := moveProfile r index m in
  __profiles m' !! Z.to_nat index = Some p
  ∧ remove_at (Z.to_nat index) (__profiles m') = remove_at i (__profiles m)
  ∧ mirror (provider m') !! "profiles" = Some (Profiles (profile_blobs m'))
  ∧ log m' = log m ++ [ProviderSet "profiles" (Profiles (profile_blobs m'))]
                   ++ (SelectProfiles <$> __contexts m)
                   ++ [Emit ProfilesReordered].
Proof.
  intros Hp Hi Hrange Hne m'. subst m'. unfold moveProfile, position.
  rewrite Hp, Hi, bool_decide_eq_false_2 by (intros ?; by apply Hne).
  destruct (index_of_Some _ _ _ Hi) as (l1 & l2 & Hl & Hnin & Hlen & Hrem).
  assert (splice_out (Z.of_nat i) (__profiles m) = ([p], l1 ++ l2)) as ->.
  { unfold splice_out. rewrite splice_start_in_range.
    - rewrite Nat2Z.id. unfold remove_at in Hrem. rewrite Hrem. f_equal.
      rewrite Hl, drop_app_length' by done. done.
    - rewrite Hl, length_app. simpl. lia. }
  simpl. unfold splice_in.
  assert (length (l1 ++ l2) = length (__profiles m) - 1) as Hlen'.
  { rewrite Hl, !length_app. simpl. lia. }
  rewrite splice_start_in_range by lia.
  set (n := Z.to_nat index).
  assert (n ≤ length (l1 ++ l2)) as Hn by lia.
  split_and!.
  - rewrite lookup_app_r; rewrite length_take; [|lia].
    by replace (n - n `min` length (l1 ++ l2)) with 0 by lia.
  - rewrite Hrem. unfold remove_at at 1.
    assert (length (take n (l1 ++ l2)) = n) as Htake by (rewrite length_take; lia).
    rewrite take_app_length' by done.
    rewrite (app_assoc _ [p]), drop_app_length'.
    + by rewrite take_drop.
    + rewrite length_app, Htake. simpl. lia.
  - by rewrite lookup_insert_eq.
  - by rewrite <-!app_assoc.
Qed.

(** X16: each of [createProfile], [deleteProfile], [moveProfile] and
    [saveProfile] leaves the stored profile list equal to the blobs of the
    list in memory, provided it was so before (also when the call changes
    nothing or raises). *)
Theorem operations_keep_store_synced (op : operation) m :
  synced m → synced (run op m).
Proof.
  intros Hs. destruct op as [options|r|r index|r]; simpl.
  - unfold synced. simpl. by rewrite lookup_insert_eq.
  - unfold deleteProfile. destruct (lookup_profile _ _ _) as [[p inst]|]; [|done].
    destruct (bool_decide _); [done|]. unfold synced. simpl.
    destruct (index_of p (__profiles m)); simpl; by rewrite lookup_insert_eq.
  - unfold moveProfile. destruct (by_key _ _) as [p|]; [|done].
    destruct (bool_decide _); [done|]. destruct (splice_out _ _).
    unfold synced. simpl. by rewrite lookup_insert_eq.
  - unfold saveProfile. destruct (by_key _ _) as [p|]; [|done].
    unfold synced. simpl. by rewrite lookup_insert_eq.
Qed.

Lemma fresh_id_by_key m1 m2 :
  (∀ k, by_key (__profile_ids m1) k = by_key (__profile_ids m2) k) →
  fresh_id m1 = fresh_id m2.
Proof.
  intros Hk. destruct (fresh_id_lowest m1) as [Hf1 Hu1].
  destruct (fresh_id_lowest m2) as [Hf2 Hu2].
  destruct (Nat.lt_trichotomy (fresh_id m1) (fresh_id m2)) as [Hlt|[?|Hlt]]; [|done|].
  - destruct (Hu2 _ Hlt) as [a Ha]. rewrite <-Hk in Ha. congruence.
  - destruct (Hu1 _ Hlt) as [a Ha]. rewrite Hk in Ha. congruence.
Qed.

(** The id of the profile just created resolves to it. *)
Lemma created_resolves (options : option profile_options) m :
  ∃ inst,
    lookup_profile (createProfile options m).2 (__profile_ids (createProfile options m).2)
      (ref_key (createProfile options m).2 (ById (IdNum (Z.of_nat (fresh_id m)))))
    = Some (length (heap m), inst)
    ∧ profile_id inst = IdNum (Z.of_nat (fresh_id m)).
Proof.
  eexists. split.
  - unfold lookup_profile, by_key. simpl.
    change (pretty (Z.of_nat (fresh_id m))) with (number_key (fresh_id m)).
    rewrite lookup_insert_eq. simpl. by rewrite list_lookup_middle.
  - reflexivity.
Qed.

(** X17: a profile made by [createProfile] with an id other than 0 and
    deleted again by that id leaves the profile list as it was and the id
    free: the next [createProfile] hands out the same id. *)
Theorem create_then_delete (options : option profile_options) m :
  fresh_id m ≠ 0 →
  ∃ m2, deleteProfile (ById (IdNum (Z.of_nat (fresh_id m)))) (createProfile options m).2
        = Returned m2
        ∧ __profiles m2 = __profiles m
        ∧ (∀ k, by_key (__profile_ids m2) k = by_key (__profile_ids m) k)
        ∧ profile (IdNum (Z.of_nat (fresh_id m))) m2 = None
        ∧ fresh_id m2 = fresh_id m.
Proof.
  intros Hne. destruct (fresh_id_lowest m) as [Hfree _].
  destruct (created_resolves options m) as (inst & Hlook & Hid).
  unfold deleteProfile. rewrite Hlook.
  rewrite bool_decide_eq_false_2 by (rewrite Hid; intros [= Hz]; lia).
  assert (∀ k, by_key (<[number_key (fresh_id m) := None]>
                        (<[number_key (fresh_id m) := Some (length (heap m))]>
                           (__profile_ids m))) k
               = by_key (__profile_ids m) k) as Hkeys.
  { intros k. unfold by_key. destruct (decide (number_key (fresh_id m) = k)) as [<-|Hk].
    - rewrite lookup_insert_eq. simpl. by rewrite <-Hfree.
    - by rewrite !lookup_insert_ne by done. }
  eexists. split; [reflexivity|]. simpl.
  change (pretty (Z.of_nat (fresh_id m))) with (number_key (fresh_id m)).
  rewrite decide_True by done. simpl.
  split_and!; [done|exact Hkeys| |].
  - unfold profile. simpl.
    change (pretty (Z.of_nat (fresh_id m))) with (number_key (fresh_id m)).
    by rewrite Hkeys.
  - apply fresh_id_by_key. simpl. exact Hkeys.
Qed.

(** X18: on a manager where no live profile has the id 0, [createProfile]
    gives the new profile the id 0, and that profile can then not be deleted:
    [deleteProfile(0)] raises and changes nothing. *)
Theorem created_with_id_zero_is_permanent (options : option profile_options) m :
  by_key (__profile_ids m) (number_key 0) = None →
  let m1 := (createProfile options m).2 in
  profile_id <$> heap m1 !! (createProfile options m).1 = Some (IdNum 0)
  ∧ deleteProfile (ById (IdNum 0)) m1 = Threw "cannot delete default profile" m1.
Proof.
  intros Hfree m1.
  assert (fresh_id m = 0) as Hz.
  { unfold fresh_id. simpl. by rewrite Hfree. }
  destruct (created_resolves options m) as (inst & Hlook & Hid).
  rewrite Hz in Hlook, Hid. subst m1. split.
  - simpl. rewrite list_lookup_middle by done. simpl. unfold profile_id. simpl.
    by rewrite Hz.
  - unfold deleteProfile. change (Z.of_nat 0) with 0%Z in Hlook, Hid.
    rewrite Hlook. by rewrite bool_decide_eq_true_2.
Qed.

End facts.

Lemma moveProfile_lands_at_index_witness :
  by_key (__profile_ids three_profiles) (ref_key three_profiles (ById (IdNum 2))) = Some 2
  ∧ index_of 2 (__profiles three_profiles) = Some 0
  ∧ (0 ≤ 2 < Z.of_nat (length (__profiles three_profiles)))%Z
  ∧ __profiles three_profiles = [2; 0; 1]
  ∧ __profiles (moveProfile (ById (IdNum 2)) 2 three_profiles) !! 2 = Some 2.
Proof.
  assert (0 ≤ 2 < Z.of_nat (length (__profiles three_profiles)))%Z as Hrange
    by (by vm_compute).
  split; [reflexivity|]. split; [reflexivity|]. split; [exact Hrange|].
  split; [reflexivity|].
  exact (proj1 (moveProfile_lands_at_index (ById (IdNum 2)) 2 three_profiles 2 0
                  eq_refl eq_refl Hrange ltac:(done))).
Defined.

Lemma operations_keep_store_synced_witness :
  synced three_profiles
  ∧ synced (run (Move (ById (IdNum 2)) (-1)) three_profiles).
Proof.
  assert (synced three_profiles) as Hs by reflexivity.
  split; [exact Hs|].
  exact (operations_keep_store_synced (Move (ById (IdNum 2)) (-1)) three_profiles Hs).
Defined.

Lemma create_then_delete_witness :
  fresh_id started = 2
  ∧ ∃ m2, deleteProfile (ById (IdNum 2)) (createProfile None started).2 = Returned m2
          ∧ __profiles m2 = __profiles started.
Proof.
  split; [reflexivity|].
  destruct (create_then_delete None started ltac:(by vm_compute))
    as (m2 & Hdel & Hlist & _).
  exists m2. by split.
Defined.

Lemma created_with_id_zero_is_permanent_witness :
  by_key (__profile_ids (fresh [0] empty_provider)) (number_key 0) = None
  ∧ deleteProfile (ById (IdNum 0)) (createProfile None (fresh [0] empty_provider)).2
    = Threw "cannot delete default profile"
        (createProfile None (fresh [0] empty_provider)).2.
Proof.
  split; [reflexivity|].
  exact (proj2 (created_with_id_zero_is_permanent None (fresh [0] empty_provider) eq_refl)).
Defined.

Example moveProfile_negative_index :
  __profiles (moveProfile (ById (IdNum 2)) (-1) three_profiles) = [0; 2; 1].
Proof. reflexivity. Qed.

End ProfilesFacts.

(** ** More on [loadProfiles] *)

Module ReloadFacts.
Import Manager ManagerFacts Profiles.

Section facts.
Context {Rule V : Type} `{EqDecision Rule}.
Variables Moderation Default : @profile_data Rule.

Implicit Types (m : @SettingsManager Rule V) (d : @profile_data Rule).
Implicit Types (acc : @loading Rule V).

Local Abbreviation loadProfiles := (loadProfiles Moderation Default).
Local Abbreviation load_step := (load_step Moderation).
Local Abbreviation patch := (patch_context Moderation).
Local Abbreviation holds := (holds Moderation).
Local Abbreviation slots := (slots Moderation).

(** The loop writes to [__profiles], [__profile_ids] and the objects
    only. *)
Lemma load_step_frame (ids : gmap string (option addr)) (old : list addr) acc d :
  log (ld_manager (load_step ids old acc d)) = log (ld_manager acc)
  ∧ __contexts (ld_manager (load_step ids old acc d)) = __contexts (ld_manager acc)
  ∧ provider (ld_manager (load_step ids old acc d)) = provider (ld_manager acc)
  ∧ _update_timer (ld_manager (load_step ids old acc d)) = _update_timer (ld_manager acc)
  ∧ pending (ld_manager (load_step ids old acc d)) = pending (ld_manager acc)
  ∧ next_handle (ld_manager (load_step ids old acc d)) = next_handle (ld_manager acc).
Proof.
  unfold load_step, Manager.load_step.
  destruct (lookup_profile _ _ _) as [[a inst]|]; [destruct (deep_equals _ _)|]; done.
Qed.

Lemma load_loop_frame (ids : gmap string (option addr)) (old : list addr) raw : ∀ acc,
  log (ld_manager (foldl (load_step ids old) acc raw)) = log (ld_manager acc)
  ∧ __contexts (ld_manager (foldl (load_step ids old) acc raw)) = __contexts (ld_manager acc)
  ∧ provider (ld_manager (foldl (load_step ids old) acc raw)) = provider (ld_manager acc)
  ∧ _update_timer (ld_manager (foldl (load_step ids old) acc raw))
    = _update_timer (ld_manager acc)
  ∧ pending (ld_manager (foldl (load_step ids old) acc raw)) = pending (ld_manager acc)
  ∧ next_handle (ld_manager (foldl (load_step ids old) acc raw))
    = next_handle (ld_manager acc).
Proof.
  induction raw as [|d raw IH]; intros acc; simpl; [done|].
  destruct (IH (load_step ids old acc d)) as (-> & -> & -> & -> & -> & ->).
  apply load_step_frame.
Qed.

Lemma load_events_allowed acc : Forall reload_effect (load_events acc).
Proof.
  unfold load_events. rewrite !Forall_app. split_and!.
  - apply Forall_fmap, Forall_true. done.
  - apply Forall_fmap, Forall_true. done.
  - apply Forall_fmap, Forall_true. done.
  - destruct (reordered acc); by repeat constructor.
Qed.

(** X19: [loadProfiles] only reads the provider and never touches the
    timer; with [suppress_events] it adds nothing to the log, and without it
    adds only [selectProfiles] calls and [profile-created],
    [profile-changed] and [profiles-reordered] events: a profile that has
    gone from the stored list disappears without [profile-deleted]. *)
Theorem loadProfiles_reads_only (suppress_events : bool) m :
  provider (state_of (loadProfiles suppress_events m)) = provider m
  ∧ __contexts (state_of (loadProfiles suppress_events m)) = __contexts m
  ∧ pending (state_of (loadProfiles suppress_events m)) = pending m
  ∧ _update_timer (state_of (loadProfiles suppress_events m)) = _update_timer m
  ∧ log (state_of (loadProfiles true m)) = log m
  ∧ ∃ es, log (state_of (loadProfiles suppress_events m)) = log m ++ es
          ∧ Forall reload_effect es.
Proof.
  unfold loadProfiles, Manager.loadProfiles.
  destruct (raw_profiles _ _ _) as [raw|]; simpl.
  - destruct (load_loop_frame (__profile_ids m) (__profiles m) raw (load_start m))
      as (Hl & Hc & Hp & Ht & Hpe & Hn).
    set (acc := foldl _ _ raw) in *. simpl in *.
    split_and!.
    + by destruct (_ || _).
    + by destruct (_ || _).
    + by destruct (_ || _).
    + by destruct (_ || _).
    + by rewrite orb_true_r.
    + destruct (_ || _); simpl.
      * exists []. by rewrite app_nil_r.
      * exists (load_events acc). rewrite Hl. split; [done|apply load_events_allowed].
  - split_and!; try done. exists []. by rewrite app_nil_r.
Qed.

Lemma lookup_profile_Some m (ids : gmap string (option addr)) (key : string)
    (a : addr) (inst : SettingsProfile) :
  lookup_profile m ids key = Some (a, inst) →
  by_key ids key = Some a ∧ heap m !! a = Some inst.
Proof.
  unfold lookup_profile. destruct (by_key ids key) as [b|]; simpl; [|done].
  destruct (heap m !! b) as [i|] eqn:Hb; simpl; [|done]. by intros [= <- <-].
Qed.

Lemma data_kept_refl (h : list (@SettingsProfile Rule)) : data_kept h h.
Proof. intros a inst Ha. by exists inst. Qed.

Lemma data_kept_trans (h1 h2 h3 : list (@SettingsProfile Rule)) :
  data_kept h1 h2 → data_kept h2 h3 → data_kept h1 h3.
Proof.
  intros H12 H23 a inst Ha. destruct (H12 a inst Ha) as (i2 & Ha2 & Hd2).
  destruct (H23 a i2 Ha2) as (i3 & Ha3 & Hd3). exists i3. split; congruence.
Qed.

Lemma listeners_moved (h : list (@SettingsProfile Rule)) (a : addr)
    (old : SettingsProfile) (blob : profile_data) :
  h !! a = Some old →
  all_listeners (<[a := {| data := data old; __listeners := [] |}]> h
                 ++ [{| data := blob; __listeners := __listeners old |}])
  ≡ₚ all_listeners h.
Proof.
  intros Ha. unfold all_listeners.
  rewrite <-(take_drop_middle h a old Ha) at 2.
  rewrite insert_take_drop by (by eapply lookup_lt_Some).
  rewrite !fmap_app, !fmap_cons, !concat_app. simpl.
  rewrite app_nil_r. rewrite <-app_assoc.
  apply Permutation_app_head. apply Permutation_app_comm.
Qed.

(** What one iteration does to the list, the index and the objects. *)
Lemma load_step_places (ids : gmap string (option addr)) (old : list addr) acc d :
  let m := ld_manager acc in
  let m' := ld_manager (load_step ids old acc d) in
  data_kept (heap m) (heap m')
  ∧ all_listeners (heap m') ≡ₚ all_listeners (heap m)
  ∧ ∃ a inst,
      __profiles m' = __profiles m ++ [a]
      ∧ __profile_ids m' = <[to_key (pd_id d) := Some a]> (__profile_ids m)
      ∧ heap m' !! a = Some inst ∧ data inst = patch d
      ∧ (a = length (heap m)
         ∨ ∃ inst0, heap m !! a = Some inst0 ∧ data inst0 = patch d).
Proof.
  intros m m'. subst m m'. unfold load_step, Manager.load_step.
  destruct (lookup_profile _ _ _) as [[a inst]|] eqn:Hlook.
  - apply lookup_profile_Some in Hlook as [_ Ha].
    destruct (deep_equals _ _) eqn:Heq; simpl.
    + apply bool_decide_eq_true_1 in Heq.
      split; [apply data_kept_refl|]. split; [done|].
      exists a, inst. split_and!; try done. right. by exists inst.
    + pose proof (lookup_lt_Some _ _ _ Ha) as Hlt. split_and!.
      * intros b ib Hb. pose proof (lookup_lt_Some _ _ _ Hb) as Hblt.
        rewrite lookup_app_l by (by rewrite length_insert).
        destruct (decide (a = b)) as [->|Hne].
        -- rewrite list_lookup_insert_eq by done. eexists. split; [done|].
           simpl. congruence.
        -- rewrite list_lookup_insert_ne by done. by exists ib.
      * by apply listeners_moved.
      * exists (length (heap (ld_manager acc))),
          {| data := patch d; __listeners := __listeners inst |}.
        split_and!; [done|done| |done|by left].
        rewrite lookup_app_r by (by rewrite length_insert).
        by rewrite length_insert, Nat.sub_diag.
  - simpl. split_and!.
    + intros b ib Hb. rewrite lookup_app_l by (by eapply lookup_lt_Some). by exists ib.
    + unfold all_listeners. rewrite fmap_app, concat_app. simpl. by rewrite !app_nil_r.
    + exists (length (heap (ld_manager acc))), (new_SettingsProfile (patch d)).
      split_and!; [done|done| |done|by left].
      by rewrite lookup_app_r, Nat.sub_diag by lia.
Qed.

Lemma load_loop_listeners (ids : gmap string (option addr)) (old : list addr) raw : ∀ acc,
  all_listeners (heap (ld_manager (foldl (load_step ids old) acc raw)))
  ≡ₚ all_listeners (heap (ld_manager acc)).
Proof.
  induction raw as [|d raw IH]; intros acc; simpl; [done|].
  rewrite IH. by destruct (load_step_places ids old acc d) as (_ & ? & _).
Qed.


Lemma holds_kept (h h' : list (@SettingsProfile Rule)) (l : list addr) (ds : list profile_data) :
  data_kept h h' → Forall2 (holds h) l ds → Forall2 (holds h') l ds.
Proof.
  intros Hk Hl. eapply Forall2_impl; [exact Hl|]. intros a d (inst & Ha & Hd).
  destruct (Hk a inst Ha) as (inst' & Ha' & Hd'). exists inst'. split; congruence.
Qed.

Lemma load_loop_holds (ids : gmap string (option addr)) (old : list addr) raw :
  ∀ acc seen,
    Forall2 (holds (heap (ld_manager acc))) (__profiles (ld_manager acc)) seen →
    Forall2 (holds (heap (ld_manager (foldl (load_step ids old) acc raw))))
      (__profiles (ld_manager (foldl (load_step ids old) acc raw))) (seen ++ raw).
Proof.
  induction raw as [|d raw IH]; intros acc seen Hseen; simpl.
  - by rewrite app_nil_r.
  - rewrite (cons_middle d), app_assoc. apply IH.
    destruct (load_step_places ids old acc d)
      as (Hkept & _ & a & inst & -> & _ & Ha & Hd & _).
    apply Forall2_app; [by eapply holds_kept|].
    constructor; [by exists inst|constructor].
Qed.

Lemma holds_blobs m (ds : list profile_data) :
  Forall2 (holds (heap m)) (__profiles m) ds → profile_blobs m = patch <$> ds.
Proof.
  unfold profile_blobs.
  induction 1 as [|a d l ds (inst & Ha & Hd) _ IH]; csimpl; [done|].
  rewrite Ha. csimpl. by rewrite Hd, IH.
Qed.

(** X21: after [loadProfiles], whatever the manager held before, the
    blobs of the profile list are the entries of the list that was read, in
    the same order, each with its context patched to the current format. *)
Theorem loadProfiles_mirrors_store (suppress_events : bool) m (raw : list profile_data) :
  raw_profiles Moderation Default (provider m) = Some raw →
  profile_blobs (state_of (loadProfiles suppress_events m)) = patch <$> raw
  ∧ length (__profiles (state_of (loadProfiles suppress_events m))) = length raw.
Proof.
  intros Hraw. unfold loadProfiles, Manager.loadProfiles. rewrite Hraw.
  pose proof (load_loop_holds (__profile_ids m) (__profiles m) raw (load_start m) []
                ltac:(constructor)) as Hh.
  simpl in Hh. set (acc := foldl _ _ raw) in *.
  assert (profile_blobs (ld_manager acc) = patch <$> raw
          ∧ length (__profiles (ld_manager acc)) = length raw) as [Hb Hlen].
  { split; [by apply holds_blobs|]. by eapply Forall2_length. }
  by destruct (_ || _).
Qed.

(** A manager whose list is indexed and holds the stored entries reloads
    quietly, whether the list is stored or is the built-in one. *)
Lemma reload_of_loaded_is_quiet m (raw : list profile_data) :
  raw_profiles Moderation Default (provider m) = Some raw →
  indexed m →
  Forall2 (holds (heap m)) (__profiles m) raw →
  quiet_reload Moderation Default m.
Proof.
  intros Hraw Hidx Hholds.
  assert (reusing m [] (__profiles m) (load_start m)) as Hstart.
  { split_and!; try done.
    - intros x (a & Ha & Hx)%ManagerFacts.elem_of_new_set%list_elem_of_omap.
      destruct (heap m !! a) as [inst|] eqn:Hinst; [|done].
      exists a, inst. split_and!; [done..|]. simpl in Hx. congruence.
    - by intros a ?%not_elem_of_nil. }
  assert (Forall2 (λ a d, ∃ inst, heap m !! a = Some inst
                     ∧ deep_equals (data inst) (patch d) = true)
            (__profiles m) raw) as Hsync.
  { eapply Forall2_impl; [exact Hholds|]. intros a d (inst & Ha & Hd).
    exists inst. split; [done|]. by apply bool_decide_eq_true_2. }
  pose proof (ManagerFacts.load_loop_reusing Moderation m Hidx _ _ Hsync [] _ eq_refl Hstart)
    as Hend.
  unfold quiet_reload, Manager.loadProfiles. rewrite Hraw.
  destruct Hend as (Hp & Hh & Hl & _ & _ & _ & Hchd & Hold & _).
  set (acc := foldl _ _ raw) in *.
  assert (old_ids acc = []) as Hempty.
  { destruct (old_ids acc) as [|x l]; [done|].
    destruct (Hold x (list_elem_of_here _ _)) as (a & _ & []%not_elem_of_nil & _). }
  rewrite Hchd, Hempty. simpl. by exists (ld_manager acc).
Qed.

Lemma slots_kept (h h' : list (@SettingsProfile Rule)) (ids : gmap string (option addr))
    (l : list addr) (es : list profile_data) (k : string) (a : addr) :
  data_kept h h' →
  k ∉ (to_key ∘ pd_id <$> es) →
  Forall2 (λ b e, holds h b e ∧ by_key ids (to_key (pd_id e)) = Some b) l es →
  Forall2 (λ b e, holds h' b e
                  ∧ by_key (<[k := Some a]> ids) (to_key (pd_id e)) = Some b) l es.
Proof.
  intros Hkept Hk Hl.
  induction Hl as [|b e l es [(ib & Hb & He) Hkey] _ IH]; constructor.
  - split.
    + destruct (Hkept b ib Hb) as (ib' & Hb' & Hd'). exists ib'. split; congruence.
    + unfold by_key in *. rewrite lookup_insert_ne; [done|].
      intros ->. apply Hk. rewrite fmap_cons. apply list_elem_of_here.
  - apply IH. intros Hin. apply Hk. rewrite fmap_cons. by apply list_elem_of_further.
Qed.

Lemma load_loop_slots (ids : gmap string (option addr)) (old : list addr) raw :
  ∀ acc seen,
    NoDup (to_key ∘ pd_id <$> seen ++ raw) →
    slots (ld_manager acc) seen →
    slots (ld_manager (foldl (load_step ids old) acc raw)) (seen ++ raw).
Proof.
  induction raw as [|d raw IH]; intros acc seen Hnd Hseen; simpl.
  - by rewrite app_nil_r.
  - rewrite (cons_middle d), app_assoc in Hnd |- *. apply IH; [done|].
    destruct (load_step_places ids old acc d)
      as (Hkept & _ & a & inst & Hp & Hi & Ha & Hd & _).
    unfold Profiles.slots. rewrite Hp, Hi. apply Forall2_app.
    + rewrite fmap_app in Hnd. apply NoDup_app in Hnd as (Hnd & _ & _).
      rewrite fmap_app in Hnd. apply NoDup_app in Hnd as (_ & Hdis & _).
      apply (slots_kept (heap (ld_manager acc))); [done| |done].
      intros Hin. apply (Hdis _ Hin). apply list_elem_of_here.
    + constructor; [|constructor]. split; [by exists inst|].
      unfold by_key. by rewrite lookup_insert_eq.
Qed.

Lemma slots_indexed m (ds : list profile_data) :
  NoDup (to_key ∘ pd_id <$> ds) → slots m ds → indexed m.
Proof.
  unfold Profiles.slots, indexed. intros Hnd Hs. split.
  - revert Hnd. induction Hs as [|a d l ds' [(inst & Ha & Hd) _] Hrest IH];
      intros Hnd; [constructor|].
    rewrite fmap_cons in Hnd. apply NoDup_cons in Hnd as [Hnin Hnd].
    constructor; [|by apply IH].
    intros Hin. apply Hnin.
    apply list_elem_of_lookup in Hin as [i Hi].
    destruct (Forall2_lookup_l _ _ _ _ _ Hrest Hi) as (d' & Hd' & (inst' & Ha' & Hdata') & _).
    assert (pd_id d = pd_id d') as Hid.
    { rewrite <-(ManagerFacts.patch_context_id Moderation d),
        <-(ManagerFacts.patch_context_id Moderation d'). congruence. }
    simpl. rewrite Hid. apply list_elem_of_fmap. exists d'. split; [done|].
    by eapply list_elem_of_lookup_2.
  - intros a Ha. apply list_elem_of_lookup in Ha as [i Hi].
    destruct (Forall2_lookup_l _ _ _ _ _ Hs Hi) as (d & _ & (inst & Ha & Hd) & Hkey).
    exists inst. split; [done|]. unfold profile_id.
    by rewrite Hd, ManagerFacts.patch_context_id.
Qed.

(** X22: reloading twice is reloading once.  When the ids of the list
    that is read are distinct as property names, the state [loadProfiles]
    leaves is one that a further [loadProfiles()] finds up to date: it emits
    nothing, calls no [selectProfiles], and keeps every instance in its
    slot. *)
Theorem loadProfiles_again_is_quiet (suppress_events : bool) m (raw : list profile_data) :
  raw_profiles Moderation Default (provider m) = Some raw →
  NoDup (to_key ∘ pd_id <$> raw) →
  quiet_reload Moderation Default (state_of (loadProfiles suppress_events m)).
Proof.
  intros Hraw Hnd.
  pose proof (load_loop_slots (__profile_ids m) (__profiles m) raw (load_start m) []
                Hnd ltac:(constructor)) as Hslots.
  pose proof (load_loop_frame (__profile_ids m) (__profiles m) raw (load_start m)) as Hframe.
  simpl in Hslots.
  unfold loadProfiles, Manager.loadProfiles. rewrite Hraw.
  set (acc := foldl _ _ raw) in *.
  assert (provider (ld_manager acc) = provider m) as Hprov by apply Hframe.
  assert (raw_profiles Moderation Default (provider (ld_manager acc)) = Some raw) as Hraw'
    by (by rewrite Hprov).
  assert (indexed (ld_manager acc)) as Hidx by (by eapply slots_indexed).
  assert (Forall2 (holds (heap (ld_manager acc))) (__profiles (ld_manager acc)) raw)
    as Hholds.
  { eapply Forall2_impl; [exact Hslots|]. by intros a d [? _]. }
  destruct (_ || _); simpl.
  - by apply (reload_of_loaded_is_quiet _ raw).
  - apply (reload_of_loaded_is_quiet _ raw); [exact Hraw'|exact Hidx|exact Hholds].
Qed.

End facts.

Lemma loadProfiles_mirrors_store_witness :
  raw_profiles sample_Moderation sample_Default (provider three_profiles)
  = Some (profile_blobs three_profiles)
  ∧ profile_blobs (state_of (loadProfiles sample_Moderation sample_Default false
                               (set_profiles reverse three_profiles)))
    = patch_context sample_Moderation <$> profile_blobs three_profiles
  ∧ length (__profiles (state_of (loadProfiles sample_Moderation sample_Default false
                                    (set_profiles reverse three_profiles))))
    = length (profile_blobs three_profiles).
Proof.
  split; [reflexivity|].
  apply (loadProfiles_mirrors_store sample_Moderation sample_Default false
           (set_profiles reverse three_profiles)).
  reflexivity.
Defined.

Lemma loadProfiles_again_is_quiet_witness :
  raw_profiles sample_Moderation sample_Default (provider (fresh [0] empty_provider))
  = Some [sample_Moderation; sample_Default]
  ∧ NoDup (to_key ∘ pd_id <$> [sample_Moderation; sample_Default])
  ∧ quiet_reload sample_Moderation sample_Default
      (state_of (loadProfiles sample_Moderation sample_Default false
                   (fresh [0] empty_provider))).
Proof.
  assert (NoDup (to_key ∘ pd_id <$> [sample_Moderation; sample_Default])) as Hnd.
  { apply (bool_decide_unpack _). by vm_compute. }
  split; [reflexivity|]. split; [exact Hnd|].
  apply (loadProfiles_again_is_quiet sample_Moderation sample_Default false
           (fresh [0] empty_provider) [sample_Moderation; sample_Default]);
    [reflexivity|exact Hnd].
Defined.

End ReloadFacts.
